(** * Service mocker: response builder and fetch dispatcher

    A shallow embedding of [src/lib/server/response.ts] (class
    [MockerResponse] and [nativeFetch]) and of the [fetch] event listener of
    the server module, together with the properties of the request
    interception engine that are stated about them.

    Platform objects (Headers, Request, Response, promises, timers, the
    logger) are modelled by plain data: every call the code makes on the
    platform is appended to a trace, so that "what the code asked the platform
    to do" can be read back and compared. *)

From Stdlib Require Import ZArith String Ascii List Bool Lia.
From Stdlib Require Import DecimalString DecimalPos DecimalZ.
From stdpp Require Import base option gmap strings list.

Set Warnings "-register-all".

Local Open Scope string_scope.
Local Open Scope Z_scope.

(** ** JavaScript values handed to [send] and [json] *)

(** Numbers are the integer-valued ones; a [Blob] carries its [type] and
    its bytes, an [ArrayBuffer] its bytes. *)
Inductive JsValue : Type :=
| JUndefined
| JNull
| JBool (b : bool)
| JNumber (n : Z)
| JString (s : string)
| JArray (items : list JsValue)
| JObject (fields : list (string * JsValue))
| JBlob (type : string) (data : string)
| JArrayBuffer (data : string)
| JFunction
| JSymbol.

(** The result of the [typeof] operator. *)
Definition typeof (v : JsValue) : string :=
  match v with
  | JUndefined => "undefined"
  | JNull => "object"
  | JBool _ => "boolean"
  | JNumber _ => "number"
  | JString _ => "string"
  | JArray _ | JObject _ | JBlob _ _ | JArrayBuffer _ => "object"
  | JFunction => "function"
  | JSymbol => "symbol"
  end.

(** ** Strings *)

Module Str.

Definition lower_ascii (c : ascii) : ascii :=
  let n := nat_of_ascii c in
  if (Nat.leb 65 n && Nat.leb n 90)%bool then ascii_of_nat (n + 32) else c.

Fixpoint lower (s : string) : string :=
  match s with
  | EmptyString => EmptyString
  | String c r => String (lower_ascii c) (lower r)
  end.

(** [includes needle s]: [needle] occurs in [s]; this is what
    [/needle/.test(s)] decides for a pattern without metacharacters. *)
Fixpoint includes (needle s : string) : bool :=
  String.prefix needle s ||
  match s with
  | EmptyString => false
  | String _ r => includes needle r
  end.

(** [s.indexOf(c) === -1] for a one-character [c]. *)
Fixpoint lacks (c : ascii) (s : string) : bool :=
  match s with
  | EmptyString => true
  | String d r => if Ascii.eqb c d then false else lacks c r
  end.

(** Truthiness of a string: the empty string is falsy. *)
Definition truthy (s : string) : bool :=
  match s with EmptyString => false | _ => true end.

End Str.

(** ** The platform's [Headers] object

    A map from lower-cased header names to values. *)
Module Headers.

Definition norm (name : string) : string := Str.lower name.

Definition set (name value : string) (h : gmap string string) : gmap string string :=
  <[norm name := value]> h.

Definition get (name : string) (h : gmap string string) : option string :=
  h !! norm name.

Definition has (name : string) (h : gmap string string) : bool :=
  bool_decide (is_Some (h !! norm name)).

Definition delete (name : string) (h : gmap string string) : gmap string string :=
  base.delete (norm name) h.

Definition append (name value : string) (h : gmap string string) : gmap string string :=
  match h !! norm name with
  | Some old => <[norm name := old ++ ", " ++ value]> h
  | None => <[norm name := value]> h
  end.

(** [new Headers(init)] for an object literal [init]. *)
Definition of_list (init : list (string * string)) : gmap string string :=
  foldl (fun h kv => set kv.1 kv.2 h) ∅ init.

End Headers.

(** ** Requests, responses and the global context *)

Record Request : Type := mkRequest {
  req_method : string;
  req_url : string;
  req_headers : gmap string string;
  req_body : string;
}.

(** [RequestInfo]: a destination URL or a [Request] object. *)
Inductive RequestInfo : Type :=
| InfoUrl (url : string)
| InfoRequest (r : Request).

(** A request body as read from a request or given in a [RequestInit]. *)
Inductive BodyInit : Type :=
| BodyText (s : string)
| BodyBlob (type : string) (data : string)
| BodyFormData (data : string).

Definition body_truthy (b : BodyInit) : bool :=
  match b with
  | BodyText s => Str.truthy s
  | BodyBlob _ _ | BodyFormData _ => true
  end.

(** [RequestInit]: a missing member is [None]. *)
Record RequestInit : Type := mkInit {
  init_body : option BodyInit;
  init_method : option string;
  init_headers : option (gmap string string);
  init_mode : option string;
  init_credentials : option string;
}.

(** The default [init = {}]. *)
Definition empty_init : RequestInit := mkInit None None None None None.

(** The platform's response object, built from (body, headers, status,
    status text); [JUndefined] is the empty body. The header list is filled
    from the one given, so a later change of the builder's headers does not
    reach a response already built. The constructor is taken as total: the
    checks the platform makes on the status are outside this model. *)
Record Response : Type := mkResponse {
  resp_body : JsValue;
  resp_headers : gmap string string;
  resp_status : Z;
  resp_statusText : string;
}.

Record FetchEvent : Type := mkEvent { request : Request }.

(** The [fetch] function found on the global object: the platform's own, the
    patched one of legacy mode (marked [mockerPatched], the original kept as
    [fetch.native]), or a polyfill built over [XMLHttpRequest]. *)
Inductive FetchImpl : Type := FetchPlatform | FetchPatched | FetchPolyfill.

(** [XMLHttpRequest] on the global object: absent, the platform's own, or
    the patched one (marked [mockerPatched], the original kept as
    [XHR.native]). *)
Inductive XHRImpl : Type := XhrAbsent | XhrPlatform | XhrPatched.

Record GlobalContext : Type := mkGlobal {
  g_fetch : FetchImpl;
  g_XMLHttpRequest : XHRImpl;
  g_userAgent : string;
}.

(** Where a call of a fetch implementation ends up. *)
Inductive Route : Type := ToNetwork | ToInterceptor | NoTransport.

Definition call_fetch (impl : FetchImpl) (g : GlobalContext) : Route :=
  match impl with
  | FetchPlatform => ToNetwork
  | FetchPatched => ToInterceptor
  | FetchPolyfill =>
      match g_XMLHttpRequest g with
      | XhrPlatform => ToNetwork
      | XhrPatched => ToInterceptor
      | XhrAbsent => NoTransport
      end
  end.

Definition set_XMLHttpRequest (x : XHRImpl) (g : GlobalContext) : GlobalContext :=
  mkGlobal (g_fetch g) x (g_userAgent g).

(** One call of a fetch implementation: where it went and what it was
    given ([None] for an [init] that was not passed). *)
Record FetchCall : Type := mkCall {
  call_route : Route;
  call_input : RequestInfo;
  call_init : option RequestInit;
}.

(** [fetch(input, init)] with whatever [fetch] the global object holds. *)
Definition global_fetch (input : RequestInfo) (init : option RequestInit)
    (g : GlobalContext) : FetchCall :=
  mkCall (call_fetch (g_fetch g) g) input init.

(** [nativeFetch(input, init)]: the call it makes, and the global context it
    leaves behind. *)
Definition nativeFetch (input : RequestInfo) (init : option RequestInit)
    (g : GlobalContext) : FetchCall * GlobalContext :=
  match g_fetch g with
  | FetchPatched =>
      (* fetch.native(input, init) *)
      (mkCall (call_fetch FetchPlatform g) input init, g)
  | _ =>
      match g_XMLHttpRequest g with
      | XhrPatched =>
          let g1 := set_XMLHttpRequest XhrPlatform g in
          let promise := global_fetch input init g1 in
          let g2 := set_XMLHttpRequest XhrPatched g1 in
          (promise, g2)
      | _ => (global_fetch input init g, g)
      end
  end.

(** [IS_IE_EDGE = /Edge/.test(navigator.userAgent)] *)
Definition IS_IE_EDGE (g : GlobalContext) : bool := Str.includes "Edge" (g_userAgent g).

(** ** The deferred completion signal *)

Inductive PromiseState : Type :=
| Pending
| Following (fetch_id : nat)
| Fulfilled (r : Response)
| Rejected.

(** What [resolve] is called with: a response, or the promise returned by
    the fetch call [fetch_id]. *)
Inductive Resolution : Type :=
| WithValue (r : Response)
| WithFetch (fetch_id : nat).

Module Defer.

(** Modelled from the spec: the [Defer] class of [../utils/] is not under
    src/. The spec has it as a single-assignment future, pairing a producer
    ([resolve]) with a consumer (the [promise]). *)
Record t : Type := mk { promise : PromiseState }.

Definition new : t := mk Pending.

(** Modelled from the spec: [done], which the per-response timer reads, says
    whether the signal is still unresolved; it is set as soon as [resolve]
    has been called, also with a promise that has not settled yet. *)
Definition done (d : t) : bool :=
  match promise d with Pending => false | _ => true end.

(** Modelled from the spec: resolution is idempotent-guarded, only the
    first resolution has effect. *)
Definition resolve (v : Resolution) (d : t) : t :=
  if done d then d
  else mk (match v with WithValue r => Fulfilled r | WithFetch i => Following i end).

End Defer.

(** ** [JSON.stringify] on the values above *)

Module JSON.

Definition number_to_string (n : Z) : string :=
  NilZero.string_of_int (Z.to_int n).

(** The double quote character, as a string. *)
Definition dquote : string := String (ascii_of_nat 34) EmptyString.

Definition hex_digit (n : nat) : ascii :=
  if Nat.ltb n 10 then ascii_of_nat (48 + n) else ascii_of_nat (87 + n).

(** The escape of one character inside a string literal. *)
Definition escape (c : ascii) : string :=
  let n := nat_of_ascii c in
  if Nat.eqb n 34 then "\" ++ dquote
  else if Nat.eqb n 92 then "\\"
  else if Nat.eqb n 8 then "\b"
  else if Nat.eqb n 12 then "\f"
  else if Nat.eqb n 10 then "\n"
  else if Nat.eqb n 13 then "\r"
  else if Nat.eqb n 9 then "\t"
  else if Nat.ltb n 32 then
    "\u00" ++ String (hex_digit (Nat.div n 16)) (String (hex_digit (Nat.modulo n 16)) EmptyString)
  else String c EmptyString.

Fixpoint escape_all (s : string) : string :=
  match s with
  | EmptyString => EmptyString
  | String c r => escape c ++ escape_all r
  end.

Definition quote (s : string) : string :=
  dquote ++ escape_all s ++ dquote.

Fixpoint join (sep : string) (l : list string) : string :=
  match l with
  | [] => EmptyString
  | [x] => x
  | x :: r => x ++ sep ++ join sep r
  end.

(** [None] is the [undefined] that [JSON.stringify] returns for
    [undefined], functions and symbols; inside an array these become
    [null], inside an object the member is left out. A [Blob] or an
    [ArrayBuffer] has no enumerable member. *)
Fixpoint stringify (v : JsValue) : option string :=
  match v with
  | JUndefined | JFunction | JSymbol => None
  | JNull => Some "null"
  | JBool true => Some "true"
  | JBool false => Some "false"
  | JNumber n => Some (number_to_string n)
  | JString s => Some (quote s)
  | JArray items =>
      Some ("[" ++ join "," (List.map (fun x => default "null" (stringify x)) items) ++ "]")
  | JObject fields =>
      Some ("{" ++ join "," (List.flat_map
                               (fun kv => match stringify (snd kv) with
                                          | Some sx => [quote (fst kv) ++ ":" ++ sx]
                                          | None => []
                                          end) fields) ++ "}")
  | JBlob _ _ | JArrayBuffer _ => Some "{}"
  end.

(** The text of an array element and the texts of an object member. *)
Definition element_text (v : JsValue) : string := default "null" (stringify v).

Definition member_texts (kv : string * JsValue) : list string :=
  match stringify (snd kv) with
  | Some sx => [quote (fst kv) ++ ":" ++ sx]
  | None => []
  end.

(** *** [JSON.parse], on texts without white space *)

Definition is_digit (c : ascii) : bool :=
  let n := nat_of_ascii c in Nat.leb 48 n && Nat.leb n 57.

Fixpoint span_digits (s : string) : string * string :=
  match s with
  | EmptyString => (EmptyString, EmptyString)
  | String c r =>
      if is_digit c then let '(d, rest) := span_digits r in (String c d, rest)
      else (EmptyString, s)
  end.

(** A number literal: an optional minus sign and decimal digits (leading
    zeros, which [JSON.stringify] never writes, are read too). *)
Definition parse_number (s : string) : option (Z * string) :=
  let '(lit, rest) :=
    match s with
    | String c r =>
        if Ascii.eqb c "-" then let '(d, rest) := span_digits r in (String c d, rest)
        else span_digits s
    | EmptyString => (EmptyString, EmptyString)
    end in
  match NilZero.int_of_string lit with
  | Some d => Some (Z.of_int d, rest)
  | None => None
  end.

Definition hex_value (c : ascii) : option nat :=
  let n := nat_of_ascii c in
  if Nat.leb 48 n && Nat.leb n 57 then Some (n - 48)%nat
  else if Nat.leb 97 n && Nat.leb n 102 then Some (n - 87)%nat
  else if Nat.leb 65 n && Nat.leb n 70 then Some (n - 55)%nat
  else None.

(** The character an escape sequence stands for; [\uXXXX] is read for the
    characters of one byte. *)
Definition unescape (e : ascii) (r : string) : option (ascii * string) :=
  let n := nat_of_ascii e in
  if Nat.eqb n 34 then Some (e, r)
  else if Nat.eqb n 92 then Some (e, r)
  else if Nat.eqb n 47 then Some (e, r)
  else if Nat.eqb n 98 then Some (ascii_of_nat 8, r)
  else if Nat.eqb n 102 then Some (ascii_of_nat 12, r)
  else if Nat.eqb n 110 then Some (ascii_of_nat 10, r)
  else if Nat.eqb n 114 then Some (ascii_of_nat 13, r)
  else if Nat.eqb n 116 then Some (ascii_of_nat 9, r)
  else if Nat.eqb n 117 then
    match r with
    | String h1 (String h2 (String h3 (String h4 r'))) =>
        match hex_value h1, hex_value h2, hex_value h3, hex_value h4 with
        | Some 0%nat, Some 0%nat, Some a, Some b => Some (ascii_of_nat (16 * a + b), r')
        | _, _, _, _ => None
        end
    | _ => None
    end
  else None.

(** The characters of a string literal after its opening quote, up to the
    closing quote. *)
Fixpoint parse_chars (fuel : nat) (s : string) : option (string * string) :=
  match fuel with
  | O => None
  | S fuel =>
      match s with
      | EmptyString => None
      | String c r =>
          let n := nat_of_ascii c in
          if Nat.eqb n 34 then Some (EmptyString, r)
          else if Nat.eqb n 92 then
            match r with
            | String e r1 =>
                match unescape e r1 with
                | Some (c', r2) =>
                    match parse_chars fuel r2 with
                    | Some (cs, rest) => Some (String c' cs, rest)
                    | None => None
                    end
                | None => None
                end
            | EmptyString => None
            end
          else if Nat.ltb n 32 then None
          else
            match parse_chars fuel r with
            | Some (cs, rest) => Some (String c cs, rest)
            | None => None
            end
      end
  end.

Definition parse_string (s : string) : option (string * string) :=
  match s with
  | String c r => if Nat.eqb (nat_of_ascii c) 34 then parse_chars (String.length r) r else None
  | EmptyString => None
  end.

(** [expect lit s]: [s] without its prefix [lit]. *)
Fixpoint expect (lit s : string) : option string :=
  match lit, s with
  | EmptyString, _ => Some s
  | String a lit', String b s' => if Ascii.eqb a b then expect lit' s' else None
  | String _ _, EmptyString => None
  end.

Fixpoint parse_value (fuel : nat) (s : string) {struct fuel} : option (JsValue * string) :=
  match fuel with
  | O => None
  | S fuel =>
      match s with
      | EmptyString => None
      | String c r =>
          if Ascii.eqb c "n" then option_map (pair JNull) (expect "ull" r)
          else if Ascii.eqb c "t" then option_map (pair (JBool true)) (expect "rue" r)
          else if Ascii.eqb c "f" then option_map (pair (JBool false)) (expect "alse" r)
          else if Nat.eqb (nat_of_ascii c) 34 then
            match parse_string s with
            | Some (str, rest) => Some (JString str, rest)
            | None => None
            end
          else if Ascii.eqb c "[" then
            match r with
            | String d r' =>
                if Ascii.eqb d "]" then Some (JArray [], r')
                else match parse_elements fuel r with
                     | Some (items, rest) => Some (JArray items, rest)
                     | None => None
                     end
            | EmptyString => None
            end
          else if Ascii.eqb c "{" then
            match r with
            | String d r' =>
                if Ascii.eqb d "}" then Some (JObject [], r')
                else match parse_members fuel r with
                     | Some (fields, rest) => Some (JObject fields, rest)
                     | None => None
                     end
            | EmptyString => None
            end
          else
            match parse_number s with
            | Some (n, rest) => Some (JNumber n, rest)
            | None => None
            end
      end
  end
(** One or more values separated by commas, up to the closing bracket. *)
with parse_elements (fuel : nat) (s : string) {struct fuel}
    : option (list JsValue * string) :=
  match fuel with
  | O => None
  | S fuel =>
      match parse_value fuel s with
      | Some (v, String c r) =>
          if Ascii.eqb c "," then
            match parse_elements fuel r with
            | Some (vs, rest) => Some (v :: vs, rest)
            | None => None
            end
          else if Ascii.eqb c "]" then Some ([v], r)
          else None
      | _ => None
      end
  end
(** One or more members separated by commas, up to the closing brace. *)
with parse_members (fuel : nat) (s : string) {struct fuel}
    : option (list (string * JsValue) * string) :=
  match fuel with
  | O => None
  | S fuel =>
      match parse_string s with
      | Some (k, String c r) =>
          if Ascii.eqb c ":" then
            match parse_value fuel r with
            | Some (v, String d r') =>
                if Ascii.eqb d "," then
                  match parse_members fuel r' with
                  | Some (ms, rest) => Some ((k, v) :: ms, rest)
                  | None => None
                  end
                else if Ascii.eqb d "}" then Some ([(k, v)], r')
                else None
            | _ => None
            end
          else None
      | _ => None
      end
  end.

(** What may follow a number literal: nothing, or a character that is not
    a digit. *)
Definition no_digit_head (rest : string) : Prop :=
  match rest with
  | EmptyString => True
  | String c _ => is_digit c = false
  end.

(** [JSON.parse(text)]: the whole text is one value. *)
Definition parse (text : string) : option JsValue :=
  match parse_value (String.length text) text with
  | Some (v, EmptyString) => Some v
  | _ => None
  end.

(** The values that [JSON.stringify] writes in full: null, booleans,
    numbers, strings, and arrays and objects of such values, an object
    having each member name once. *)
Fixpoint distinct (names : list string) : bool :=
  match names with
  | [] => true
  | k :: r => negb (existsb (String.eqb k) r) && distinct r
  end.

Fixpoint serializable (v : JsValue) : bool :=
  match v with
  | JNull | JBool _ | JNumber _ | JString _ => true
  | JArray items => forallb serializable items
  | JObject fields =>
      forallb (fun kv => serializable (snd kv)) fields && distinct (List.map fst fields)
  | _ => false
  end.

End JSON.


(** ** The response builder and the world around it *)

(** [class MockerResponse]: its fields. *)
Record MockerResponse : Type := mkRes {
  headers : gmap string string;
  _body : JsValue;
  _statusCode : Z;
  _deferred : Defer.t;
  _event : FetchEvent;
}.

Inductive Level : Type := LogWarn | LogError.

Inductive TimerId : Type := ResponseTimer | FallbackTimer.

(** The promise handed to [respondWith]: the deferred signal's own promise,
    or the one derived from it by [then]. *)
Inductive PromiseRef : Type := DeferredPromise | DeferredPromiseThen.

(** Calls on the platform and on the collaborators, in the order made. *)
Inductive Effect : Type :=
| RespondWith (p : PromiseRef)
| SetTimeout (t : TimerId) (ms : Z)
| ClearTimeout (t : TimerId)
| Log (l : Level) (msg : string)
| Fetch (id : nat) (c : FetchCall)
| Match (router : nat).

(** Reactions registered on the deferred signal's promise with [then]. *)
Inductive Reaction : Type :=
| ClearTimer      (* then(clear, clear): on fulfilment and on rejection *)
| MarkResolved.   (* then(res => { resolved = true; ... }): on fulfilment *)

Record World : Type := mkWorld {
  w_global : GlobalContext;
  w_now : Z;                          (* clock, in milliseconds *)
  w_res : MockerResponse;
  w_resolved : bool;                  (* the listener's [resolved] *)
  w_trace : list Effect;
  w_timers : list (TimerId * Z);      (* armed timers with their deadlines *)
  w_reactions : list Reaction;        (* not yet run *)
  w_fetches : nat;                    (* fetch calls made so far *)
  w_inflight : list nat;              (* fetch calls not yet answered *)
  w_fallback : list nat;              (* calls carrying then(res => _deferred.resolve(res)) *)
}.

Definition upd_res (f : MockerResponse -> MockerResponse) (w : World) : World :=
  mkWorld (w_global w) (w_now w) (f (w_res w)) (w_resolved w) (w_trace w)
          (w_timers w) (w_reactions w) (w_fetches w) (w_inflight w) (w_fallback w).

Definition emit (e : Effect) (w : World) : World :=
  mkWorld (w_global w) (w_now w) (w_res w) (w_resolved w) (w_trace w ++ [e])
          (w_timers w) (w_reactions w) (w_fetches w) (w_inflight w) (w_fallback w).

Definition set_global (g : GlobalContext) (w : World) : World :=
  mkWorld g (w_now w) (w_res w) (w_resolved w) (w_trace w)
          (w_timers w) (w_reactions w) (w_fetches w) (w_inflight w) (w_fallback w).

Definition set_now (t : Z) (w : World) : World :=
  mkWorld (w_global w) t (w_res w) (w_resolved w) (w_trace w)
          (w_timers w) (w_reactions w) (w_fetches w) (w_inflight w) (w_fallback w).

Definition set_resolved (b : bool) (w : World) : World :=
  mkWorld (w_global w) (w_now w) (w_res w) b (w_trace w)
          (w_timers w) (w_reactions w) (w_fetches w) (w_inflight w) (w_fallback w).

Definition set_timers (ts : list (TimerId * Z)) (w : World) : World :=
  mkWorld (w_global w) (w_now w) (w_res w) (w_resolved w) (w_trace w)
          ts (w_reactions w) (w_fetches w) (w_inflight w) (w_fallback w).

Definition set_reactions (rs : list Reaction) (w : World) : World :=
  mkWorld (w_global w) (w_now w) (w_res w) (w_resolved w) (w_trace w)
          (w_timers w) rs (w_fetches w) (w_inflight w) (w_fallback w).

Definition set_inflight (l : list nat) (w : World) : World :=
  mkWorld (w_global w) (w_now w) (w_res w) (w_resolved w) (w_trace w)
          (w_timers w) (w_reactions w) (w_fetches w) l (w_fallback w).

Definition add_fallback (id : nat) (w : World) : World :=
  mkWorld (w_global w) (w_now w) (w_res w) (w_resolved w) (w_trace w)
          (w_timers w) (w_reactions w) (w_fetches w) (w_inflight w) (w_fallback w ++ [id]).

(** A fetch call goes out: it gets the next id and awaits its answer. *)
Definition issue (c : FetchCall) (w : World) : nat * World :=
  let id := w_fetches w in
  (id, mkWorld (w_global w) (w_now w) (w_res w) (w_resolved w)
               (w_trace w ++ [Fetch id c])
               (w_timers w) (w_reactions w) (S id) (w_inflight w ++ [id]) (w_fallback w)).

Definition set_headers (h : gmap string string) (r : MockerResponse) : MockerResponse :=
  mkRes h (_body r) (_statusCode r) (_deferred r) (_event r).

Definition set_body (b : JsValue) (r : MockerResponse) : MockerResponse :=
  mkRes (headers r) b (_statusCode r) (_deferred r) (_event r).

Definition set_statusCode (c : Z) (r : MockerResponse) : MockerResponse :=
  mkRes (headers r) (_body r) c (_deferred r) (_event r).

Definition set_deferred (d : Defer.t) (r : MockerResponse) : MockerResponse :=
  mkRes (headers r) (_body r) (_statusCode r) d (_event r).

(** [this._deferred.resolve(v)] *)
Definition resolve (v : Resolution) (w : World) : World :=
  upd_res (fun r => set_deferred (Defer.resolve v (_deferred r)) r) w.

(** The state of the deferred signal's promise. *)
Definition signal (w : World) : PromiseState := Defer.promise (_deferred (w_res w)).

Definition NULL_BODY_STATUS : list Z := [101; 204; 205; 304].

(** [NULL_BODY_STATUS.indexOf(code) > -1] *)
Definition is_null_body_status (code : Z) : bool :=
  existsb (Z.eqb code) NULL_BODY_STATUS.

(** One time unit of the specification, in the milliseconds of [setTimeout]. *)
Definition time_unit : Z := 1000.

Definition MSG_TIMEOUT : string := "processing response timeout, forgot to call `res.end()`?".
Definition MSG_EDGE : string :=
  "using null body status in IE Edge may raise a `TypeMismatchError` Error".

(** ** The methods of [MockerResponse] *)

Section Builder.

(** The collaborators: [mime.lookup] of mime-component and
    [HttpStatus.getStatusText] of http-status-codes, which raises an error
    on an unknown code ([None]). *)
Variable mime_lookup : string -> string.
Variable getStatusText : Z -> option string.

Definition status (code : Z) (w : World) : World :=
  upd_res (set_statusCode code) w.

Definition type (t : string) (w : World) : World :=
  let contentType := if Str.lacks "/" t then mime_lookup t else t in
  upd_res (fun r => set_headers (Headers.set "content-type" contentType (headers r)) r) w.

Definition _getStatusText (r : MockerResponse) : string :=
  match getStatusText (_statusCode r) with
  | Some statusText => statusText
  | None => JSON.number_to_string (_statusCode r)
  end.

(** [end()]; named [end_] since [end] is a keyword. *)
Definition end_ (w : World) : World :=
  let request := request (_event (w_res w)) in
  let responseBody := _body (w_res w) in
  let null_body := is_null_body_status (_statusCode (w_res w)) in
  let w := if null_body && IS_IE_EDGE (w_global w)
           then emit (Log LogWarn MSG_EDGE) w else w in
  let responseBody := if null_body then JUndefined else responseBody in
  let responseBody :=
    if String.eqb (req_method request) "HEAD" then JUndefined else responseBody in
  let w := if negb (Headers.has "content-type" (headers (w_res w)))
           then type "text" w else w in
  let response :=
    mkResponse responseBody (headers (w_res w)) (_statusCode (w_res w))
               (_getStatusText (w_res w)) in
  resolve (WithValue response) w.

(** [end()] discards the body: the status is a null-body one or the
    request is a HEAD. *)
Definition discards_body (w : World) : bool :=
  is_null_body_status (_statusCode (w_res w))
  || String.eqb (req_method (request (_event (w_res w)))) "HEAD".

(** The response that [end()] builds in the world [w], in closed form. *)
Definition finalized (w : World) : Response :=
  let r := w_res w in
  mkResponse
    (if discards_body w then JUndefined else _body r)
    (if Headers.has "content-type" (headers r) then headers r
     else Headers.set "content-type" (mime_lookup "text") (headers r))
    (_statusCode r)
    (_getStatusText r).

Definition json (body : JsValue) (w : World) : World :=
  let w := upd_res (set_body (match JSON.stringify body with
                              | Some s => JString s
                              | None => JUndefined
                              end)) w in
  let w := if negb (Headers.has "content-type" (headers (w_res w)))
           then type "json" w else w in
  end_ w.

(** The tail of [send] after the [switch]. *)
Definition send_finish (contentType : string) (w : World) : World :=
  let w := if negb (Headers.has "content-type" (headers (w_res w)))
           then type contentType w else w in
  end_ w.

Definition send (body : JsValue) (w : World) : World :=
  let contentType := "text" in
  if String.eqb (typeof body) "string" then
    send_finish "html" (upd_res (set_body body) w)
  else if String.eqb (typeof body) "boolean"
       || String.eqb (typeof body) "number"
       || String.eqb (typeof body) "object" then
    match body with
    | JBlob ty _ =>
        send_finish (if Str.truthy ty then ty else "bin") (upd_res (set_body body) w)
    | JArrayBuffer _ =>
        send_finish "bin" (upd_res (set_body body) w)
    | _ => json body w
    end
  else send_finish contentType w.

Definition sendStatus (code : Z) (w : World) : World :=
  let w := type "text" w in
  let w := upd_res (set_statusCode code) w in
  let body := _getStatusText (w_res w) in
  send (JString body) w.

(** [a || b] on request bodies, methods and header objects. *)
Definition or_body (a b : option BodyInit) : option BodyInit :=
  match a with
  | Some x => if body_truthy x then Some x else b
  | None => b
  end.

Definition or_method (a : option string) (b : string) : string :=
  match a with
  | Some m => if Str.truthy m then m else b
  | None => b
  end.

(** The body that [forward] reads from a clone of the original request. *)
Definition defaultBody (request : Request) : option BodyInit :=
  if negb (String.eqb (req_method request) "GET")
     && negb (String.eqb (req_method request) "HEAD") then
    match Headers.get "content-type" (req_headers request) with
    | Some contentType =>
        if Str.truthy contentType then
          if Str.includes "form-data" contentType
          then Some (BodyFormData (req_body request))
          else Some (BodyBlob contentType (req_body request))
        else Some (BodyText (req_body request))
    | None => Some (BodyText (req_body request))
    end
  else None.

Definition forward_options (request : Request) (init : RequestInit) : RequestInit :=
  mkInit (or_body (init_body init) (defaultBody request))
         (Some (or_method (init_method init) (req_method request)))
         (Some (default (req_headers request) (init_headers init)))
         (Some "cors")
         (Some "include").

(** [this._deferred.resolve(nativeFetch(input, init))] *)
Definition resolve_with_nativeFetch (input : RequestInfo) (init : RequestInit)
    (w : World) : World :=
  let '(call, g) := nativeFetch input (Some init) (w_global w) in
  let '(id, w) := issue call (set_global g w) in
  resolve (WithFetch id) w.

Definition forward (input : RequestInfo) (init : RequestInit) (w : World) : World :=
  let request := request (_event (w_res w)) in
  match input with
  | InfoRequest _ => resolve_with_nativeFetch input init w
  | InfoUrl _ => resolve_with_nativeFetch input (forward_options request init) w
  end.

End Builder.

(** ** Handlers, routers, timers and the event loop *)

(** What a handler can do with the response builder it is given. *)
Inductive Call : Type :=
| CStatus (code : Z)
| CType (t : string)
| CJson (body : JsValue)
| CSend (body : JsValue)
| CSendStatus (code : Z)
| CEnd
| CForward (input : RequestInfo) (init : RequestInit)
| CHeadersSet (name value : string)
| CHeadersAppend (name value : string)
| CHeadersDelete (name : string).

(** Modelled from the spec: the router module ([./router]) is not under
    src/. The spec has [attemptMatch] invoke the handlers of the matching
    entries with the response builder and return whether at least one entry
    matched syntactically: [_match] gives, for an event, that return value
    and the calls its handlers make on the builder before it returns. *)
Record MockerRouter : Type := mkRouter {
  rid : nat;
  _match : FetchEvent -> bool * list Call;
}.

(** What happens after the listener has returned. *)
Inductive Event : Type :=
| EvHandler (c : Call)                          (* a handler resumes and calls the builder *)
| EvTimer                                       (* the next armed timer fires *)
| EvNetReply (id : nat) (r : option Response).  (* fetch call [id] is answered, or fails *)

Definition timer_eqb (a b : TimerId) : bool :=
  match a, b with
  | ResponseTimer, ResponseTimer | FallbackTimer, FallbackTimer => true
  | _, _ => false
  end.

(** [Array.prototype.some]: stops at the first element whose callback
    returns a truthy value. *)
Fixpoint some {A S : Type} (f : A -> S -> bool * S) (l : list A) (s : S) : bool * S :=
  match l with
  | [] => (false, s)
  | x :: r => let '(b, s') := f x s in if b then (true, s') else some f r s'
  end.

(** The armed timer with the least deadline, the first armed among equals. *)
Fixpoint next_timer (ts : list (TimerId * Z)) : option (TimerId * Z) :=
  match ts with
  | [] => None
  | t :: r =>
      match next_timer r with
      | Some u => if Z.ltb u.2 t.2 then Some u else Some t
      | None => Some t
      end
  end.

Definition disarm (t : TimerId) (w : World) : World :=
  set_timers (filter (fun p => negb (timer_eqb p.1 t)) (w_timers w)) w.

Definition setTimeout (t : TimerId) (ms : Z) (w : World) : World :=
  emit (SetTimeout t ms) (set_timers (w_timers w ++ [(t, w_now w + ms)]) w).

Definition clearTimeout (t : TimerId) (w : World) : World :=
  emit (ClearTimeout t) (disarm t w).

Definition run_reaction (r : Reaction) (w : World) : World :=
  match r, signal w with
  | ClearTimer, (Fulfilled _ | Rejected) => clearTimeout ResponseTimer w
  | MarkResolved, Fulfilled _ => set_resolved true w
  | _, _ => w
  end.

(** The microtasks at the end of a task: once the deferred signal's promise
    has settled, its reactions run, once. *)
Definition drain (w : World) : World :=
  match signal w with
  | Fulfilled _ | Rejected =>
      set_reactions [] (foldl (fun w r => run_reaction r w) w (w_reactions w))
  | Pending | Following _ => w
  end.

Section Server.

Variable mime_lookup : string -> string.
Variable getStatusText : Z -> option string.

Definition call (c : Call) (w : World) : World :=
  match c with
  | CStatus code => status code w
  | CType t => type mime_lookup t w
  | CJson body => json mime_lookup getStatusText body w
  | CSend body => send mime_lookup getStatusText body w
  | CSendStatus code => sendStatus mime_lookup getStatusText code w
  | CEnd => end_ mime_lookup getStatusText w
  | CForward input init => forward input init w
  | CHeadersSet k v => upd_res (fun r => set_headers (Headers.set k v (headers r)) r) w
  | CHeadersAppend k v => upd_res (fun r => set_headers (Headers.append k v (headers r)) r) w
  | CHeadersDelete k => upd_res (fun r => set_headers (Headers.delete k (headers r)) r) w
  end.

Definition calls (cs : list Call) (w : World) : World :=
  foldl (fun w c => call c w) w cs.

(** [new MockerResponse(event)], at time [now] under the global context
    [g]. *)
Definition MockerResponse_new (event : FetchEvent) (g : GlobalContext) (now : Z) : World :=
  let this :=
    mkRes (Headers.of_list [("X-Powered-By", "ServiceMocker")])
          JUndefined 200 Defer.new event in
  let w := mkWorld g now this false [] [] [] 0 [] [] in
  let w := emit (RespondWith DeferredPromise) w in
  let w := setTimeout ResponseTimer (10 * 1000) w in
  set_reactions (w_reactions w ++ [ClearTimer]) w.

(** The callback of the per-response timer. *)
Definition response_timeout (w : World) : World :=
  if Defer.done (_deferred (w_res w)) then w
  else
    let w := emit (Log LogError MSG_TIMEOUT) w in
    forward (InfoRequest (request (_event (w_res w)))) empty_init w.

(** The callback of the listener's timer. *)
Definition fallback_timeout (w : World) : World :=
  if w_resolved w then w
  else
    let w := set_resolved true w in
    let '(id, w) :=
      issue (global_fetch (InfoRequest (request (_event (w_res w)))) None (w_global w)) w in
    add_fallback id w.

(** The callback given to [MockerRouter.routers.some]. *)
Definition match_router (event : FetchEvent) (router : MockerRouter) (w : World)
    : bool * World :=
  let w := emit (Match (rid router)) w in
  let '(matched, cs) := _match router event in
  (matched, calls cs w).

(** The listener of the [fetch] event, run as one task. *)
Definition on_fetch (routers : list MockerRouter) (event : FetchEvent)
    (g : GlobalContext) (now : Z) : World :=
  let w := MockerResponse_new event g now in
  let w := set_resolved false w in
  let w := emit (RespondWith DeferredPromiseThen) w in
  let w := set_reactions (w_reactions w ++ [MarkResolved]) w in
  let w := (some (match_router event) routers w).2 in
  let w := setTimeout FallbackTimer 2000 w in
  drain w.

Definition fire (w : World) : World :=
  match next_timer (w_timers w) with
  | None => w
  | Some (t, deadline) =>
      let w := set_now (Z.max (w_now w) deadline) (disarm t w) in
      match t with
      | ResponseTimer => response_timeout w
      | FallbackTimer => fallback_timeout w
      end
  end.

Definition net_reply (id : nat) (result : option Response) (w : World) : World :=
  if bool_decide (id ∈ w_inflight w) then
    let w := set_inflight (filter (fun i => negb (Nat.eqb i id)) (w_inflight w)) w in
    let w :=
      match signal w with
      | Following i =>
          if Nat.eqb i id then
            upd_res (set_deferred (Defer.mk (match result with
                                             | Some r => Fulfilled r
                                             | None => Rejected
                                             end))) w
          else w
      | _ => w
      end in
    if bool_decide (id ∈ w_fallback w) then
      match result with
      | Some r => resolve (WithValue r) w
      | None => w
      end
    else w
  else w.

Definition step (e : Event) (w : World) : World :=
  drain (match e with
         | EvHandler c => call c w
         | EvTimer => fire w
         | EvNetReply id r => net_reply id r w
         end).

Definition run (es : list Event) (w : World) : World :=
  foldl (fun w e => step e w) w es.

End Server.

(** ** Sample collaborators and a sample request

    The entries of the two tables that the examples below use. *)

Definition mime_table (t : string) : string :=
  if String.eqb t "text" then "text/plain"
  else if String.eqb t "html" then "text/html"
  else if String.eqb t "json" then "application/json"
  else "application/octet-stream".

Definition status_table (code : Z) : option string :=
  if code =? 200 then Some "OK"
  else if code =? 201 then Some "Created"
  else if code =? 204 then Some "No Content"
  else if code =? 404 then Some "Not Found"
  else None.

Definition service_worker : GlobalContext := mkGlobal FetchPlatform XhrAbsent "Mozilla/5.0".
Definition legacy_fetch : GlobalContext := mkGlobal FetchPatched XhrPatched "Mozilla/5.0".
Definition legacy_polyfill : GlobalContext := mkGlobal FetchPolyfill XhrPatched "Mozilla/5.0".

Definition GET (url : string) : FetchEvent := mkEvent (mkRequest "GET" url ∅ EmptyString).
Definition HEAD (url : string) : FetchEvent := mkEvent (mkRequest "HEAD" url ∅ EmptyString).

(** ** Reading a trace and a response *)

(** The routers whose [_match] the dispatcher called, in order. *)
Definition asked (tr : list Effect) : list nat :=
  flat_map (fun e => match e with Match i => [i] | _ => [] end) tr.

(** The promises given to [respondWith], in order. *)
Definition respondWith_calls (tr : list Effect) : list PromiseRef :=
  flat_map (fun e => match e with RespondWith p => [p] | _ => [] end) tr.

(** The messages logged at a level, in order. *)
Definition logged (l : Level) (tr : list Effect) : list string :=
  flat_map (fun e => match e, l with
                     | Log LogWarn m, LogWarn | Log LogError m, LogError => [m]
                     | _, _ => []
                     end) tr.

(** The fetch calls made, in order. *)
Definition fetch_calls (tr : list Effect) : list FetchCall :=
  flat_map (fun e => match e with Fetch _ c => [c] | _ => [] end) tr.

(** The routers of a registry up to and including the first one whose
    [_match] returns true for the event. *)
Fixpoint until_match (event : FetchEvent) (routers : list MockerRouter) : list MockerRouter :=
  match routers with
  | [] => []
  | r :: rest => r :: (if (_match r event).1 then [] else until_match event rest)
  end.

(** [end()], [json()], [send()] and [sendStatus()]: the calls that build a
    response. *)
Definition finalizes (c : Call) : bool :=
  match c with
  | CEnd | CJson _ | CSend _ | CSendStatus _ => true
  | _ => false
  end.

(** A call that sets, extends or deletes the [X-Powered-By] header. *)
Definition touches_powered_by (c : Call) : bool :=
  match c with
  | CHeadersSet k _ | CHeadersAppend k _ | CHeadersDelete k =>
      String.eqb (Headers.norm k) "x-powered-by"
  | _ => false
  end.

(** The body of a response read as JSON text. *)
Definition body_json (r : Response) : option JsValue :=
  match resp_body r with
  | JString text => JSON.parse text
  | _ => None
  end.

(** What the first part of a finalizing call leaves alone: everything
    outside the builder and, in it, the signal, the event and the headers
    other than the content type. *)
Record same_request (w' w : World) : Prop := {
  same_signal : signal w' = signal w;
  same_event : _event (w_res w') = _event (w_res w);
  same_headers : forall k, k <> "content-type" ->
                           headers (w_res w') !! k = headers (w_res w) !! k;
  same_outside : forall r, upd_res (fun _ => r) w' = upd_res (fun _ => r) w;
}.

(** No handler call, neither those made inside [_match] for the event nor
    those made later, sets, extends or deletes the [X-Powered-By] header. *)
Definition keeps_powered_by (routers : list MockerRouter) (event : FetchEvent)
    (es : list Event) : bool :=
  forallb (fun rt => forallb (fun c => negb (touches_powered_by c)) (_match rt event).2) routers
  && forallb (fun e => match e with
                       | EvHandler c => negb (touches_powered_by c)
                       | _ => true
                       end) es.

(** The builder carries the seeded header, and so does the response of a
    fulfilled signal unless it is one of the responses [R]. *)
Definition powered_by_inv (R : Response -> Prop) (w : World) : Prop :=
  headers (w_res w) !! "x-powered-by" = Some "ServiceMocker"
  /\ forall r, signal w = Fulfilled r ->
               resp_headers r !! "x-powered-by" = Some "ServiceMocker" \/ R r.

(** The effects that calls on the builder, timers and network answers can
    add to a trace: they log, fetch and clear timers, and nothing else. *)
Definition quiet (e : Effect) : bool :=
  match e with
  | Log _ _ | Fetch _ _ | ClearTimeout _ => true
  | RespondWith _ | SetTimeout _ _ | Match _ => false
  end.

Definition extends_quietly (w' w : World) : Prop :=
  exists extra, w_trace w' = (w_trace w ++ extra)%list /\ forallb quiet extra = true.

(** ** Sample routers *)

(** A router whose middleware answers [res.status(201).json({id: 1})]. *)
Definition router_A : MockerRouter :=
  mkRouter 0 (fun _ => (true, [CStatus 201; CJson (JObject [("id", JNumber 1)])])).

(** A second router, registered after [router_A], that answers 404. *)
Definition router_B : MockerRouter :=
  mkRouter 1 (fun _ => (true, [CSendStatus 404])).

(** A router none of whose entries matches. *)
Definition router_none : MockerRouter := mkRouter 2 (fun _ => (false, [])).

Definition response_A : Response :=
  mkResponse (JString ("{" ++ JSON.dquote ++ "id" ++ JSON.dquote ++ ":1}"))
             (Headers.set "content-type" "application/json"
                (Headers.of_list [("X-Powered-By", "ServiceMocker")]))
             201 "Created".

(** A global context in which a fetch polyfill has an [XMLHttpRequest] to
    work with. *)
Definition has_transport (g : GlobalContext) : bool :=
  match g_fetch g, g_XMLHttpRequest g with
  | FetchPolyfill, XhrAbsent => false
  | _, _ => true
  end.

(** The [init] that [forward] hands to [nativeFetch]. *)
Definition forwarded_init (w : World) (input : RequestInfo) (init : RequestInit)
    : RequestInit :=
  match input with
  | InfoRequest _ => init
  | InfoUrl _ => forward_options (request (_event (w_res w))) init
  end.

(** A request that arrives as a [Request] object. *)
Definition POST_json : Request :=
  mkRequest "POST" "/api/items" (Headers.set "Content-Type" "application/json" ∅)
            "{}".

(** The dispatch table of [send], by the shape of the body: the body that
    is kept, and the token or MIME type given to [type] when no content type
    was set. *)
Inductive Shape : Type := ShapeText | ShapeBinary | ShapeJson | ShapeOther.

Definition shape (body : JsValue) : Shape :=
  match body with
  | JString _ => ShapeText
  | JBlob _ _ | JArrayBuffer _ => ShapeBinary
  | JNull | JBool _ | JNumber _ | JArray _ | JObject _ => ShapeJson
  | JUndefined | JFunction | JSymbol => ShapeOther
  end.

Definition send_content_type (body : JsValue) : string :=
  match body with
  | JString _ => "html"
  | JBlob ty _ => if Str.truthy ty then ty else "bin"
  | JArrayBuffer _ => "bin"
  | JNull | JBool _ | JNumber _ | JArray _ | JObject _ => "json"
  | JUndefined | JFunction | JSymbol => "text"
  end.

Definition send_body (body : JsValue) (before : JsValue) : JsValue :=
  match shape body with
  | ShapeText | ShapeBinary => body
  | ShapeJson => match JSON.stringify body with Some s => JString s | None => JUndefined end
  | ShapeOther => before
  end.

(** ** The two timers of a request *)

Definition delay_of (t : TimerId) : Z :=
  match t with
  | ResponseTimer => 10 * time_unit
  | FallbackTimer => 2 * time_unit
  end.

(** What a call on the builder or a network answer leaves alone. *)
Record same_schedule (w' w : World) : Prop := {
  same_timers : w_timers w' = w_timers w;
  same_reactions : w_reactions w' = w_reactions w;
  same_resolved : w_resolved w' = w_resolved w;
  same_now : w_now w' = w_now w;
  same_event' : _event (w_res w') = _event (w_res w);
}.

(** The armed timers of the request dispatched at [now] for [event] carry
    the deadlines they were armed with. *)
Definition armed_ok (event : FetchEvent) (now : Z) (w : World) : Prop :=
  _event (w_res w) = event
  /\ forall t d, In (t, d) (w_timers w) -> d = now + delay_of t.

(** Between two tasks: while the signal has not settled the reaction that
    clears the per-response timer is waiting; once it has settled, the
    reactions have run and the timer has been cleared. *)
Definition scheduled (event : FetchEvent) (now : Z) (w : World) : Prop :=
  armed_ok event now w
  /\ match signal w with
     | Pending | Following _ => In ClearTimer (w_reactions w)
     | Fulfilled _ | Rejected =>
         w_reactions w = []
         /\ ~ In ResponseTimer (map fst (w_timers w))
         /\ In (ClearTimeout ResponseTimer) (w_trace w)
     end.

(** The promise has been fulfilled or rejected. *)
Definition settled (s : PromiseState) : bool :=
  match s with
  | Fulfilled _ | Rejected => true
  | Pending | Following _ => false
  end.

(** The per-response timer has been cleared. *)
Definition cleared (w : World) : Prop :=
  ~ In ResponseTimer (map fst (w_timers w))
  /\ In (ClearTimeout ResponseTimer) (w_trace w).

Definition fulfilled (s : PromiseState) : bool :=
  match s with Fulfilled _ => true | _ => false end.

(** The listener's [resolved] flag between two tasks: it is set once the
    signal is fulfilled; while the signal has not settled the reaction that
    sets it is waiting; and as long as the listener's timer is armed and no
    response has been delivered it is not set. *)
Definition flagged (w : World) : Prop :=
  (fulfilled (signal w) = true -> w_resolved w = true)
  /\ (settled (signal w) = false -> In MarkResolved (w_reactions w))
  /\ (In FallbackTimer (map fst (w_timers w)) -> fulfilled (signal w) = false ->
      w_resolved w = false).

Definition is_mark (r : Reaction) : bool :=
  match r with MarkResolved => true | ClearTimer => false end.

(** A router whose handler forwards the request to another origin. *)
Definition router_forward : MockerRouter :=
  mkRouter 3 (fun _ => (true, [CForward (InfoUrl "https://backend.example.com/items")
                                          empty_init])).

Definition network_response (text : string) : Response :=
  mkResponse (JString text) ∅ 200 "OK".

(** ** More readings of the builder *)

(** [end()], [json()] and [send()]: the finalizing calls that set a content
    type only when none is set. *)
Definition keeps_content_type (c : Call) : bool :=
  match c with
  | CEnd | CJson _ | CSend _ => true
  | _ => false
  end.

(** What [forward] to a URL takes from an [init]: a truthy body, a truthy
    method and the headers. *)
Definition effective_init (init : RequestInit) : RequestInit :=
  mkInit (match init_body init with
          | Some b => if body_truthy b then Some b else None
          | None => None
          end)
         (match init_method init with
          | Some m => if Str.truthy m then Some m else None
          | None => None
          end)
         (init_headers init) None None.

(** ** More on the two timers *)

(** The request of the listener's timer, for the original request and
    without an [init], is in the trace. *)
Definition fallback_fetched (event : FetchEvent) (tr : list Effect) : Prop :=
  exists id route, In (Fetch id (mkCall route (InfoRequest (request event)) None)) tr.

(** Once the listener's timer is no longer armed the flag is set; and the
    flag is set only when a response has been delivered or the listener's
    request has gone out. *)
Definition fallback_state (event : FetchEvent) (w : World) : Prop :=
  (~ In FallbackTimer (map fst (w_timers w)) -> w_resolved w = true)
  /\ (w_resolved w = true ->
      fulfilled (signal w) = true \/ fallback_fetched event (w_trace w)).

(** A pending signal still has its per-response timer armed, and a signal
    that follows a request has that request in flight. *)
Definition alive (w : World) : Prop :=
  (signal w = Pending -> In ResponseTimer (map fst (w_timers w)))
  /\ (forall i, signal w = Following i -> In i (w_inflight w)).

(** A network answer that carries a response, or a timer. *)
Definition helpful (e : Event) : bool :=
  match e with
  | EvTimer | EvNetReply _ (Some _) => true
  | _ => false
  end.

(** A fetch call made without an [init]: [forward] always passes one to
    [nativeFetch], the callback of the listener's timer passes none. *)
Definition bare (e : Effect) : bool :=
  match e with
  | Fetch _ c => match call_init c with None => true | Some _ => false end
  | _ => false
  end.

(** How many fetch calls without an [init] a trace has. *)
Definition listener_fetches (tr : list Effect) : nat := length (List.filter bare tr).

(** The listener's own fetch goes out once at most, and only with the
    [resolved] flag set. *)
Definition fetched_once (w : World) : Prop :=
  (w_resolved w = false -> listener_fetches (w_trace w) = 0%nat)
  /\ (listener_fetches (w_trace w) <= 1)%nat.

(** ** The handshake

    The [message] listener of the server module: what it posts on the port
    that comes with a message, and when it claims the pages in scope. *)

Module ACTION.

(** Modelled from the spec: the constants module ([../constants/]) is not
    under src/. The spec gives the wire shape of a handshake message as an
    object with an [action] member that is one of the four strings below. *)
Definition PING : string := "PING".
Definition PONG : string := "PONG".
Definition REQUEST_CLAIM : string := "REQUEST_CLAIM".
Definition ESTABLISHED : string := "ESTABLISHED".

End ACTION.

(** Truthiness of a value: what [!v] negates. *)
Definition js_truthy (v : JsValue) : bool :=
  match v with
  | JUndefined | JNull => false
  | JBool b => b
  | JNumber n => negb (Z.eqb n 0)
  | JString s => Str.truthy s
  | JArray _ | JObject _ | JBlob _ _ | JArrayBuffer _ | JFunction | JSymbol => true
  end.

(** [data.action] for a truthy [data]: the member of an object (the first
    with that key in its list of fields), [undefined] for an object without
    one and for every other value. *)
Definition action_of (data : JsValue) : JsValue :=
  match data with
  | JObject fields =>
      match find (fun kv => String.eqb kv.1 "action") fields with
      | Some kv => kv.2
      | None => JUndefined
      end
  | _ => JUndefined
  end.

(** [v === s] for a string [s], as the [case] labels of a [switch]
    compare. *)
Definition strict_equals (v : JsValue) (s : string) : bool :=
  match v with
  | JString t => String.eqb t s
  | _ => false
  end.

Module Handshake.

(** A [MessageEvent]: its [data], and its [ports] ([None] for a falsy
    [ports]), each port known by a number. *)
Record MessageEvent : Type := mkMessage {
  data : JsValue;
  ports : option (list nat);
}.

Inductive Effect : Type :=
| PostMessage (port : nat) (message : JsValue)   (* port.postMessage(message) *)
| ClaimClients.                                  (* self.clients.claim() *)

(** [{ action }] *)
Definition message (action : string) : JsValue := JObject [("action", JString action)].

(** The listener of the [message] event. [claimed] says whether the promise
    of [self.clients.claim()] is fulfilled: what follows the [await] runs
    only then. *)
Definition on_message (claimed : bool) (event : MessageEvent) : list Effect :=
  if negb (js_truthy (data event)) then []
  else
    match ports event with
    | None => []
    | Some [] => []
    | Some (port :: _) =>
        let action := action_of (data event) in
        if strict_equals action ACTION.PING then
          [PostMessage port (message ACTION.PONG)]
        else if strict_equals action ACTION.REQUEST_CLAIM then
          ClaimClients :: (if claimed then [PostMessage port (message ACTION.ESTABLISHED)]
                           else [])
        else []
    end.

End Handshake.


(** * Properties *)

(** ** [JSON.parse] reads back what [JSON.stringify] writes *)

Lemma string_app_cons (x : ascii) (a b : string) : String x a ++ b = String x (a ++ b).
Proof. reflexivity. Qed.

Lemma string_app_assoc (a b c : string) : (a ++ b) ++ c = a ++ (b ++ c).
Proof.
  induction a as [|x a IH]; [reflexivity|].
  rewrite !string_app_cons. now f_equal.
Qed.

Lemma string_app_length (a b : string) :
  String.length (a ++ b) = (String.length a + String.length b)%nat.
Proof.
  induction a as [|x a IH]; [reflexivity|].
  rewrite string_app_cons. cbn [String.length Nat.add]. now f_equal.
Qed.

(** *** Numbers *)

Lemma span_digits_uint (u : Decimal.uint) (rest : string) :
  JSON.no_digit_head rest ->
  JSON.span_digits (NilEmpty.string_of_uint u ++ rest) = (NilEmpty.string_of_uint u, rest).
Proof.
  intros Hrest. induction u as [|u IH|u IH|u IH|u IH|u IH|u IH|u IH|u IH|u IH|u IH];
    cbn [NilEmpty.string_of_uint]; rewrite ?string_app_cons;
    cbn [JSON.span_digits];
    try (change (JSON.is_digit _) with true; cbn iota; now rewrite IH).
  change (EmptyString ++ rest) with rest.
  destruct rest as [|c rest]; [reflexivity|].
  cbn [JSON.span_digits]. cbn in Hrest. now rewrite Hrest.
Qed.

Lemma to_int_shape (n : Z) :
  exists u, u <> Decimal.Nil
            /\ (Z.to_int n = Decimal.Pos u \/ Z.to_int n = Decimal.Neg u).
Proof.
  destruct n as [|p|p]; cbn.
  - exists (Decimal.D0 Decimal.Nil). split; [discriminate|now left].
  - exists (Pos.to_uint p). split; [apply DecimalPos.Unsigned.to_uint_nonnil|now left].
  - exists (Pos.to_uint p). split; [apply DecimalPos.Unsigned.to_uint_nonnil|now right].
Qed.

Lemma uint_head_digit (u : Decimal.uint) :
  u <> Decimal.Nil ->
  exists c s, NilEmpty.string_of_uint u = String c s /\ JSON.is_digit c = true.
Proof.
  destruct u; [congruence| | | | | | | | | |]; intros _; cbn; eauto.
Qed.

Lemma parse_number_round_trip (n : Z) (rest : string) :
  JSON.no_digit_head rest ->
  JSON.parse_number (JSON.number_to_string n ++ rest) = Some (n, rest).
Proof.
  intros Hrest. unfold JSON.number_to_string.
  destruct (to_int_shape n) as (u & Hnil & Hshape).
  assert (Hz : Z.of_int (Z.to_int n) = n) by apply DecimalZ.of_to.
  assert (Hu : NilZero.string_of_uint u = NilEmpty.string_of_uint u).
  { destruct u; [congruence| | | | | | | | | |]; reflexivity. }
  destruct (uint_head_digit u Hnil) as (c & s & Hs & Hc).
  assert (Hisi : NilZero.int_of_string (NilZero.string_of_int (Z.to_int n))
                 = Some (Z.to_int n)).
  { apply NilZero.isi; destruct Hshape as [-> | ->]; congruence. }
  unfold JSON.parse_number.
  destruct Hshape as [Hp | Hp]; rewrite Hp in *; cbn [NilZero.string_of_int] in *.
  - rewrite Hu in *.
    assert (Hminus : Ascii.eqb c "-" = false).
    { apply Ascii.eqb_neq. intros ->. discriminate. }
    pose proof (span_digits_uint u rest Hrest) as Hspan.
    rewrite Hs in Hspan at 1. rewrite Hs. rewrite string_app_cons in *.
    rewrite Hminus, Hspan. now rewrite Hisi, Hz.
  - rewrite Hu in *. rewrite string_app_cons. rewrite Ascii.eqb_refl.
    rewrite span_digits_uint by exact Hrest. now rewrite Hisi, Hz.
Qed.

(** *** String literals *)

Lemma parse_chars_escape (c : ascii) (fuel : nat) (text : string) :
  JSON.parse_chars (S fuel) (JSON.escape c ++ text)
  = match JSON.parse_chars fuel text with
    | Some (cs, rest) => Some (String c cs, rest)
    | None => None
    end.
Proof. destruct c as [[] [] [] [] [] [] [] []]; reflexivity. Qed.

Lemma escape_nonempty (c : ascii) : (1 <= String.length (JSON.escape c))%nat.
Proof. destruct c as [[] [] [] [] [] [] [] []]; vm_compute; lia. Qed.

Lemma length_escape_all (s : string) :
  (String.length s <= String.length (JSON.escape_all s))%nat.
Proof.
  induction s as [|c s IH]; [reflexivity|].
  cbn [JSON.escape_all String.length]. rewrite string_app_length.
  pose proof (escape_nonempty c). lia.
Qed.

Lemma parse_chars_round_trip (s : string) :
  forall (fuel : nat) (rest : string),
    (String.length s < fuel)%nat ->
    JSON.parse_chars fuel (JSON.escape_all s ++ JSON.dquote ++ rest) = Some (s, rest).
Proof.
  induction s as [|c s IH]; intros fuel rest Hfuel.
  - destruct fuel as [|fuel]; [cbn in Hfuel; lia|reflexivity].
  - destruct fuel as [|fuel]; [cbn in Hfuel; lia|].
    cbn [JSON.escape_all]. rewrite string_app_assoc, parse_chars_escape.
    rewrite IH; [reflexivity|]. cbn in Hfuel. lia.
Qed.

Lemma parse_string_quote (s rest : string) :
  JSON.parse_string (JSON.quote s ++ rest) = Some (s, rest).
Proof.
  unfold JSON.quote. rewrite !string_app_assoc.
  change (JSON.dquote ++ JSON.escape_all s ++ JSON.dquote ++ rest)
    with (String (ascii_of_nat 34) (JSON.escape_all s ++ JSON.dquote ++ rest)).
  cbn [JSON.parse_string]. change (Nat.eqb (nat_of_ascii (ascii_of_nat 34)) 34) with true.
  cbn iota. apply parse_chars_round_trip.
  rewrite string_app_length. pose proof (length_escape_all s).
  rewrite string_app_length. cbn. lia.
Qed.

(** *** Values *)

Lemma parse_value_number (fuel : nat) (c : ascii) (s : string) :
  JSON.is_digit c = true \/ c = "-"%char ->
  JSON.parse_value (S fuel) (String c s)
  = match JSON.parse_number (String c s) with
    | Some (n, rest) => Some (JNumber n, rest)
    | None => None
    end.
Proof.
  destruct c as [[] [] [] [] [] [] [] []]; intros [H | H];
    try (vm_compute in H; discriminate H); reflexivity.
Qed.

Lemma parse_value_string (fuel : nat) (r : string) :
  JSON.parse_value (S fuel) (String (ascii_of_nat 34) r)
  = match JSON.parse_string (String (ascii_of_nat 34) r) with
    | Some (str, rest) => Some (JString str, rest)
    | None => None
    end.
Proof. reflexivity. Qed.

Lemma parse_value_array (fuel : nat) (r : string) :
  JSON.parse_value (S fuel) (String "[" r)
  = match r with
    | String d r' =>
        if Ascii.eqb d "]" then Some (JArray [], r')
        else match JSON.parse_elements fuel r with
             | Some (items, rest) => Some (JArray items, rest)
             | None => None
             end
    | EmptyString => None
    end.
Proof. reflexivity. Qed.

Lemma parse_value_object (fuel : nat) (r : string) :
  JSON.parse_value (S fuel) (String "{" r)
  = match r with
    | String d r' =>
        if Ascii.eqb d "}" then Some (JObject [], r')
        else match JSON.parse_members fuel r with
             | Some (fields, rest) => Some (JObject fields, rest)
             | None => None
             end
    | EmptyString => None
    end.
Proof. reflexivity. Qed.

Lemma parse_elements_step (fuel : nat) (s : string) :
  JSON.parse_elements (S fuel) s
  = match JSON.parse_value fuel s with
    | Some (v, String c r) =>
        if Ascii.eqb c "," then
          match JSON.parse_elements fuel r with
          | Some (vs, rest) => Some (v :: vs, rest)
          | None => None
          end
        else if Ascii.eqb c "]" then Some ([v], r)
        else None
    | _ => None
    end.
Proof. reflexivity. Qed.

Lemma parse_members_step (fuel : nat) (s : string) :
  JSON.parse_members (S fuel) s
  = match JSON.parse_string s with
    | Some (k, String c r) =>
        if Ascii.eqb c ":" then
          match JSON.parse_value fuel r with
          | Some (v, String d r') =>
              if Ascii.eqb d "," then
                match JSON.parse_members fuel r' with
                | Some (ms, rest) => Some ((k, v) :: ms, rest)
                | None => None
                end
              else if Ascii.eqb d "}" then Some ([(k, v)], r')
              else None
          | _ => None
          end
        else None
    | _ => None
    end.
Proof. reflexivity. Qed.

Lemma stringify_array (items : list JsValue) :
  JSON.stringify (JArray items)
  = Some ("[" ++ JSON.join "," (List.map JSON.element_text items) ++ "]").
Proof. reflexivity. Qed.

Lemma stringify_object (fields : list (string * JsValue)) :
  JSON.stringify (JObject fields)
  = Some ("{" ++ JSON.join "," (List.flat_map JSON.member_texts fields) ++ "}").
Proof. reflexivity. Qed.

Lemma serializable_array (items : list JsValue) :
  JSON.serializable (JArray items) = forallb JSON.serializable items.
Proof. reflexivity. Qed.

Lemma serializable_object (fields : list (string * JsValue)) :
  JSON.serializable (JObject fields)
  = forallb (fun kv => JSON.serializable (snd kv)) fields
    && JSON.distinct (List.map fst fields).
Proof. reflexivity. Qed.

Lemma number_head (n : Z) :
  exists c s, JSON.number_to_string n = String c s
              /\ (JSON.is_digit c = true \/ c = "-"%char).
Proof.
  unfold JSON.number_to_string.
  destruct (to_int_shape n) as (u & Hnil & [-> | ->]); cbn [NilZero.string_of_int].
  - destruct (uint_head_digit u Hnil) as (c & s & Hs & Hc).
    exists c, s. split; [|now left].
    rewrite <- Hs. destruct u; [congruence| | | | | | | | | |]; reflexivity.
  - eexists _, _. split; [reflexivity|now right].
Qed.

(** The first character of the text of a serializable value: it opens a
    literal, an array or an object, and so closes none. *)
Lemma stringify_head (v : JsValue) (s : string) :
  JSON.serializable v = true -> JSON.stringify v = Some s ->
  exists c s', s = String c s' /\ Ascii.eqb c "]" = false /\ Ascii.eqb c "}" = false.
Proof.
  intros Hv Hs. destruct v; try discriminate.
  - injection Hs as <-. now eexists _, _.
  - destruct b; injection Hs as <-; now eexists _, _.
  - cbn in Hs. injection Hs as <-.
    destruct (number_head n) as (c & s' & -> & [Hc | ->]).
    + exists c, s'. split; [reflexivity|].
      destruct c as [[] [] [] [] [] [] [] []]; try discriminate Hc; now split.
    + now eexists _, _.
  - cbn in Hs. injection Hs as <-. now eexists _, _.
  - rewrite stringify_array in Hs. injection Hs as <-. now eexists _, _.
  - rewrite stringify_object in Hs. injection Hs as <-. now eexists _, _.
Qed.

Lemma serializable_stringify (v : JsValue) :
  JSON.serializable v = true -> exists s, JSON.stringify v = Some s.
Proof.
  destruct v; try discriminate; intros _; cbn [JSON.stringify]; eauto.
  - destruct b; eauto.
Qed.

Lemma join_two (sep a b : string) (l : list string) :
  JSON.join sep (a :: b :: l) = a ++ sep ++ JSON.join sep (b :: l).
Proof. reflexivity. Qed.

Lemma join_head (sep : string) (c : ascii) (a : string) (l : list string) :
  exists t, JSON.join sep (String c a :: l) = String c t.
Proof. destruct l; eexists; reflexivity. Qed.

Lemma element_text_some (v : JsValue) (s : string) :
  JSON.stringify v = Some s -> JSON.element_text v = s.
Proof. unfold JSON.element_text. now intros ->. Qed.

Lemma member_texts_some (k : string) (v : JsValue) (s : string) :
  JSON.stringify v = Some s -> JSON.member_texts (k, v) = [JSON.quote k ++ ":" ++ s].
Proof. unfold JSON.member_texts. cbn [fst snd]. now intros ->. Qed.

Lemma parse_value_array_cons (fuel : nat) (d : ascii) (r : string) :
  Ascii.eqb d "]" = false ->
  JSON.parse_value (S fuel) (String "[" (String d r))
  = match JSON.parse_elements fuel (String d r) with
    | Some (items, rest) => Some (JArray items, rest)
    | None => None
    end.
Proof. intros H. rewrite parse_value_array. now rewrite H. Qed.

Lemma parse_value_object_cons (fuel : nat) (d : ascii) (r : string) :
  Ascii.eqb d "}" = false ->
  JSON.parse_value (S fuel) (String "{" (String d r))
  = match JSON.parse_members fuel (String d r) with
    | Some (fields, rest) => Some (JObject fields, rest)
    | None => None
    end.
Proof. intros H. rewrite parse_value_object. now rewrite H. Qed.

Lemma quote_app (s rest : string) :
  JSON.quote s ++ rest
  = String (ascii_of_nat 34) ((JSON.escape_all s ++ JSON.dquote) ++ rest).
Proof. reflexivity. Qed.

Lemma parse_elements_more (fuel : nat) (s : string) (v : JsValue) (r : string) :
  JSON.parse_value fuel s = Some (v, String "," r) ->
  JSON.parse_elements (S fuel) s
  = match JSON.parse_elements fuel r with
    | Some (vs, rest) => Some (v :: vs, rest)
    | None => None
    end.
Proof. intros H. rewrite parse_elements_step, H. reflexivity. Qed.

Lemma parse_elements_last (fuel : nat) (s : string) (v : JsValue) (r : string) :
  JSON.parse_value fuel s = Some (v, String "]" r) ->
  JSON.parse_elements (S fuel) s = Some ([v], r).
Proof. intros H. rewrite parse_elements_step, H. reflexivity. Qed.

Lemma parse_members_more (fuel : nat) (s k : string) (v : JsValue) (r r' : string) :
  JSON.parse_string s = Some (k, String ":" r) ->
  JSON.parse_value fuel r = Some (v, String "," r') ->
  JSON.parse_members (S fuel) s
  = match JSON.parse_members fuel r' with
    | Some (ms, rest) => Some ((k, v) :: ms, rest)
    | None => None
    end.
Proof. intros H1 H2. rewrite parse_members_step, H1. cbn iota. rewrite H2. reflexivity. Qed.

Lemma parse_members_last (fuel : nat) (s k : string) (v : JsValue) (r r' : string) :
  JSON.parse_string s = Some (k, String ":" r) ->
  JSON.parse_value fuel r = Some (v, String "}" r') ->
  JSON.parse_members (S fuel) s = Some ([(k, v)], r').
Proof. intros H1 H2. rewrite parse_members_step, H1. cbn iota. rewrite H2. reflexivity. Qed.

Lemma join_cons_nonempty (sep a : string) (l : list string) :
  l <> [] -> JSON.join sep (a :: l) = a ++ sep ++ JSON.join sep l.
Proof. destruct l; [congruence|reflexivity]. Qed.

Lemma flat_map_member_texts_cons (k : string) (v : JsValue) (s : string)
    (fields : list (string * JsValue)) :
  JSON.stringify v = Some s ->
  List.flat_map JSON.member_texts ((k, v) :: fields)
  = (JSON.quote k ++ ":" ++ s) :: List.flat_map JSON.member_texts fields.
Proof. intros H. cbn [List.flat_map]. now rewrite (member_texts_some k v s H). Qed.

(** The text of a serializable value, followed by anything that a number
    cannot run into, is read back as that value, the rest left over. *)
Lemma parse_round_trip_fuel (fuel : nat) :
  (forall v s rest,
      JSON.serializable v = true -> JSON.stringify v = Some s ->
      (String.length s <= fuel)%nat -> JSON.no_digit_head rest ->
      JSON.parse_value fuel (s ++ rest) = Some (v, rest))
  /\ (forall x items rest,
        forallb JSON.serializable (x :: items) = true ->
        (String.length (JSON.join "," (List.map JSON.element_text (x :: items))) < fuel)%nat ->
        JSON.parse_elements fuel
          (JSON.join "," (List.map JSON.element_text (x :: items)) ++ "]" ++ rest)
        = Some (x :: items, rest))
  /\ (forall kv fields rest,
        forallb (fun kv => JSON.serializable (snd kv)) (kv :: fields) = true ->
        (String.length (JSON.join "," (List.flat_map JSON.member_texts (kv :: fields)))
         < fuel)%nat ->
        JSON.parse_members fuel
          (JSON.join "," (List.flat_map JSON.member_texts (kv :: fields)) ++ "}" ++ rest)
        = Some (kv :: fields, rest)).
Proof.
  induction fuel as [|f (IHv & IHe & IHm)].
  - split; [|split]; try (intros; lia).
    intros v s rest Hv Hs Hlen _.
    destruct (stringify_head v s Hv Hs) as (c & s' & -> & _). cbn in Hlen. lia.
  - split; [|split].
    + intros v s rest Hv Hs Hlen Hrest. destruct v; try discriminate.
      * injection Hs as <-. reflexivity.
      * destruct b; injection Hs as <-; reflexivity.
      * cbn in Hs. injection Hs as <-.
        destruct (number_head n) as (c & s' & Hn & Hc).
        pose proof (parse_number_round_trip n rest Hrest) as Hp.
        rewrite Hn in *. rewrite string_app_cons in *.
        rewrite parse_value_number by exact Hc. now rewrite Hp.
      * cbn in Hs. injection Hs as <-.
        rewrite quote_app, parse_value_string, <- quote_app.
        now rewrite parse_string_quote.
      * rewrite stringify_array in Hs. injection Hs as <-.
        rewrite serializable_array in Hv.
        destruct items as [|x items]; [reflexivity|].
        set (J := JSON.join "," (List.map JSON.element_text (x :: items))) in *.
        assert (Hhead : exists c t, J ++ "]" ++ rest = String c t
                                    /\ Ascii.eqb c "]" = false).
        { pose proof Hv as Hx. cbn [forallb] in Hx. apply andb_true_iff in Hx as [Hx _].
          destruct (serializable_stringify x Hx) as [sx Hsx].
          destruct (stringify_head x sx Hx Hsx) as (c & sx' & -> & Hc & _).
          subst J. cbn [List.map]. rewrite (element_text_some x _ Hsx).
          destruct (join_head "," c sx' (List.map JSON.element_text items)) as [t ->].
          rewrite string_app_cons. eauto. }
        destruct Hhead as (c & t & E & Hc).
        change (("[" ++ J ++ "]") ++ rest) with (String "[" ((J ++ "]") ++ rest)).
        rewrite string_app_assoc, E, (parse_value_array_cons f c t Hc), <- E.
        change ("[" ++ J ++ "]") with (String "[" (J ++ "]")) in Hlen.
        cbn [String.length] in Hlen. rewrite string_app_length in Hlen.
        cbn [String.length] in Hlen. subst J.
        rewrite IHe; [reflexivity|exact Hv|lia].
      * rewrite stringify_object in Hs. injection Hs as <-.
        rewrite serializable_object in Hv. apply andb_true_iff in Hv as [Hv _].
        destruct fields as [|[k v] fields]; [reflexivity|].
        set (J := JSON.join "," (List.flat_map JSON.member_texts ((k, v) :: fields))) in *.
        assert (Hhead : exists t, J ++ "}" ++ rest = String (ascii_of_nat 34) t).
        { pose proof Hv as Hx. cbn [forallb snd] in Hx. apply andb_true_iff in Hx as [Hx _].
          destruct (serializable_stringify v Hx) as [sv Hsv].
          subst J. cbn [List.flat_map]. rewrite (member_texts_some k v _ Hsv).
          change ([(JSON.quote k ++ ":" ++ sv)%string]
                  ++ List.flat_map JSON.member_texts fields)%list
            with ((JSON.quote k ++ ":" ++ sv) :: List.flat_map JSON.member_texts fields).
          rewrite quote_app.
          destruct (join_head "," (ascii_of_nat 34)
                      ((JSON.escape_all k ++ JSON.dquote) ++ ":" ++ sv)
                      (List.flat_map JSON.member_texts fields)) as [t ->].
          rewrite string_app_cons. eauto. }
        destruct Hhead as (t & E).
        change (("{" ++ J ++ "}") ++ rest) with (String "{" ((J ++ "}") ++ rest)).
        rewrite string_app_assoc, E, (parse_value_object_cons f (ascii_of_nat 34) t eq_refl), <- E.
        change ("{" ++ J ++ "}") with (String "{" (J ++ "}")) in Hlen.
        cbn [String.length] in Hlen. rewrite string_app_length in Hlen.
        cbn [String.length] in Hlen. subst J.
        rewrite IHm; [reflexivity|exact Hv|lia].
    + intros x items rest Hall Hlen.
      pose proof Hall as Hx. cbn [forallb] in Hx. apply andb_true_iff in Hx as [Hx Hitems].
      destruct (serializable_stringify x Hx) as [sx Hsx].
      cbn [List.map] in *. rewrite (element_text_some x _ Hsx) in *.
      destruct items as [|y items].
      * cbn [List.map JSON.join] in *.
        apply parse_elements_last.
        apply (IHv x sx ("]" ++ rest) Hx Hsx); [lia|reflexivity].
      * cbn [List.map] in *. rewrite join_two in *.
        rewrite !string_app_assoc.
        rewrite string_app_length in Hlen. rewrite string_app_length in Hlen.
        cbn [String.length] in Hlen.
        rewrite (parse_elements_more f _ x
                   (JSON.join "," (JSON.element_text y :: List.map JSON.element_text items)
                    ++ "]" ++ rest)).
        -- rewrite (IHe y items rest Hitems); [reflexivity|cbn [List.map]; lia].
        -- apply (IHv x sx ("," ++ _) Hx Hsx); [lia|reflexivity].
    + intros [k v] fields rest Hall Hlen.
      pose proof Hall as Hx. cbn [forallb snd] in Hx.
      apply andb_true_iff in Hx as [Hx Hfields].
      destruct (serializable_stringify v Hx) as [sv Hsv].
      rewrite (flat_map_member_texts_cons k v sv fields Hsv) in *.
      destruct fields as [|[k2 v2] fields].
      * cbn [List.flat_map JSON.join] in *.
        rewrite !string_app_assoc.
        rewrite !string_app_length in Hlen. cbn [String.length] in Hlen.
        apply (parse_members_last f _ k v (sv ++ "}" ++ rest)).
        -- apply parse_string_quote.
        -- apply (IHv v sv ("}" ++ rest) Hx Hsv); [lia|reflexivity].
      * assert (Hne : List.flat_map JSON.member_texts ((k2, v2) :: fields) <> []).
        { pose proof Hfields as H2. cbn [forallb snd] in H2.
          apply andb_true_iff in H2 as [H2 _].
          destruct (serializable_stringify v2 H2) as [s2 Hs2].
          now rewrite (flat_map_member_texts_cons k2 v2 s2 fields Hs2). }
        rewrite (join_cons_nonempty _ _ _ Hne) in *.
        rewrite !string_app_assoc.
        rewrite !string_app_length in Hlen. cbn [String.length] in Hlen.
        rewrite (parse_members_more f _ k v
                   (sv ++ "," ++ JSON.join "," (List.flat_map JSON.member_texts
                                                  ((k2, v2) :: fields)) ++ "}" ++ rest)
                   (JSON.join "," (List.flat_map JSON.member_texts ((k2, v2) :: fields))
                    ++ "}" ++ rest)).
        -- rewrite (IHm (k2, v2) fields rest Hfields); [reflexivity|lia].
        -- apply parse_string_quote.
        -- apply (IHv v sv ("," ++ _) Hx Hsv); [lia|reflexivity].
Qed.

Lemma string_app_nil_r (a : string) : a ++ EmptyString = a.
Proof.
  induction a as [|x a IH]; [reflexivity|]. rewrite string_app_cons. now f_equal.
Qed.

(** [JSON.parse(JSON.stringify(v))] is [v], for every serializable [v]. *)
Lemma parse_stringify (v : JsValue) :
  JSON.serializable v = true ->
  exists text, JSON.stringify v = Some text /\ JSON.parse text = Some v.
Proof.
  intros Hv. destruct (serializable_stringify v Hv) as [text Htext].
  exists text. split; [exact Htext|]. unfold JSON.parse.
  destruct (parse_round_trip_fuel (String.length text)) as (Hvalue & _ & _).
  pose proof (Hvalue v text EmptyString Hv Htext (le_n _) I) as H.
  rewrite string_app_nil_r in H. now rewrite H.
Qed.


(** ** The deferred signal *)

Lemma resolve_settled v w : signal w <> Pending -> resolve v w = w.
Proof.
  destruct w as [g n [h b c [p] e] rs tr ts re nf fl fb]; cbn.
  intros Hp. unfold resolve, upd_res, set_deferred, Defer.resolve, Defer.done; cbn.
  destruct p; congruence.
Qed.

Lemma resolve_pending v w :
  signal w = Pending ->
  signal (resolve v w)
  = match v with WithValue r => Fulfilled r | WithFetch i => Following i end.
Proof.
  destruct w as [g n [h b c [p] e] rs tr ts re nf fl fb]; cbn.
  intros ->. reflexivity.
Qed.

Lemma signal_resolve_settled v w : signal w <> Pending -> signal (resolve v w) = signal w.
Proof. intros H. now rewrite resolve_settled. Qed.

Lemma done_signal w : Defer.done (_deferred (w_res w)) = false <-> signal w = Pending.
Proof. unfold Defer.done, signal. destruct (Defer.promise _); split; congruence. Qed.

Section Properties.

Variable mime_lookup : string -> string.
Variable getStatusText : Z -> option string.

Abbreviation end_' := (end_ mime_lookup getStatusText).
Abbreviation json' := (json mime_lookup getStatusText).
Abbreviation send' := (send mime_lookup getStatusText).
Abbreviation sendStatus' := (sendStatus mime_lookup getStatusText).
Abbreviation type' := (type mime_lookup).
Abbreviation call' := (call mime_lookup getStatusText).
Abbreviation calls' := (calls mime_lookup getStatusText).
Abbreviation finalized' := (finalized mime_lookup getStatusText).
Abbreviation run' := (run mime_lookup getStatusText).
Abbreviation step' := (step mime_lookup getStatusText).
Abbreviation on_fetch' := (on_fetch mime_lookup getStatusText).

Lemma signal_type t w : signal (type' t w) = signal w.
Proof. reflexivity. Qed.

Lemma end_pending w : signal w = Pending -> signal (end_' w) = Fulfilled (finalized' w).
Proof.
  intros Hp. unfold end_.
  rewrite resolve_pending.
  - f_equal. unfold finalized, discards_body.
    destruct (is_null_body_status _), (IS_IE_EDGE _), (String.eqb _ "HEAD"),
      (Headers.has "content-type" (headers (w_res w))) eqn:Hh;
      cbn; rewrite ?Hh; cbn; try reflexivity.
  - destruct (_ && _), (negb _); cbn; exact Hp.
Qed.

Lemma end_settled w : signal w <> Pending -> signal (end_' w) = signal w.
Proof.
  intros Hp. unfold end_. rewrite signal_resolve_settled.
  - destruct (_ && _), (negb _); reflexivity.
  - destruct (_ && _), (negb _); cbn; exact Hp.
Qed.

Lemma signal_issue c w : signal (issue c w).2 = signal w.
Proof. reflexivity. Qed.

Lemma forward_settled input init w :
  signal w <> Pending -> signal (forward input init w) = signal w.
Proof.
  intros Hp. unfold forward, resolve_with_nativeFetch.
  destruct input; destruct (nativeFetch _ _ _) as [c g];
    cbn [issue]; now rewrite signal_resolve_settled.
Qed.

Lemma send_finish_settled ct w :
  signal w <> Pending -> signal (send_finish mime_lookup getStatusText ct w) = signal w.
Proof.
  intros Hp. unfold send_finish.
  destruct (negb _); now rewrite end_settled.
Qed.

Lemma json_settled body w : signal w <> Pending -> signal (json' body w) = signal w.
Proof.
  intros Hp. unfold json.
  destruct (negb _); now rewrite end_settled.
Qed.

Lemma send_settled body w : signal w <> Pending -> signal (send' body w) = signal w.
Proof.
  intros Hp. unfold send.
  destruct (String.eqb (typeof body) "string").
  { now rewrite send_finish_settled. }
  destruct (_ || _).
  - destruct body; try (now rewrite json_settled); now rewrite send_finish_settled.
  - now rewrite send_finish_settled.
Qed.

(** Once the signal has been resolved, no call on the builder changes it. *)
Lemma call_settled c w : signal w <> Pending -> signal (call' c w) = signal w.
Proof.
  intros Hp. destruct c; cbn [call]; try reflexivity.
  - now apply json_settled.
  - now apply send_settled.
  - unfold sendStatus. now rewrite send_settled.
  - now apply end_settled.
  - now apply forward_settled.
Qed.

Lemma calls_settled cs w : signal w <> Pending -> signal (calls' cs w) = signal w.
Proof.
  revert w. induction cs as [|c cs IH]; intros w Hp; [reflexivity|].
  cbn. change (signal (calls' cs (call' c w)) = signal w).
  rewrite IH; rewrite call_settled; auto.
Qed.

(** ** Every finalizing call ends in [end()] *)

Lemma norm_content_type : Headers.norm "content-type" = "content-type".
Proof. reflexivity. Qed.

Lemma type_headers_other t w k :
  k <> "content-type" -> headers (w_res (type' t w)) !! k = headers (w_res w) !! k.
Proof.
  intros Hk. unfold type, upd_res, set_headers; cbn [w_res headers].
  unfold Headers.set. rewrite norm_content_type.
  now rewrite lookup_insert_ne.
Qed.

Lemma type_headers_content_type t w :
  Headers.get "content-type" (headers (w_res (type' t w)))
  = Some (if Str.lacks "/" t then mime_lookup t else t).
Proof.
  unfold type, upd_res, set_headers; cbn [w_res headers].
  unfold Headers.get, Headers.set. now rewrite lookup_insert_eq.
Qed.

Lemma same_request_refl w : same_request w w.
Proof. now split. Qed.

Lemma same_request_default_type t w :
  same_request (if negb (Headers.has "content-type" (headers (w_res w)))
                then type' t w else w) w.
Proof.
  destruct (negb _); [|apply same_request_refl].
  split; try reflexivity. intros k Hk. now apply type_headers_other.
Qed.

Lemma same_request_trans w1 w2 w3 :
  same_request w1 w2 -> same_request w2 w3 -> same_request w1 w3.
Proof.
  intros [a1 b1 c1 d1] [a2 b2 c2 d2]. split; try congruence.
  - intros k Hk. rewrite c1, c2; auto.
  - intros r. now rewrite d1, d2.
Qed.

Lemma same_request_trace w' w : same_request w' w -> w_trace w' = w_trace w.
Proof.
  intros H. pose proof (same_outside _ _ H (w_res w)) as E.
  now apply (f_equal w_trace) in E.
Qed.

Lemma same_request_global w' w : same_request w' w -> w_global w' = w_global w.
Proof.
  intros H. pose proof (same_outside _ _ H (w_res w)) as E.
  now apply (f_equal w_global) in E.
Qed.

Lemma default_type_status t w :
  _statusCode (w_res (if negb (Headers.has "content-type" (headers (w_res w)))
                      then type' t w else w)) = _statusCode (w_res w).
Proof. now destruct (negb _). Qed.

Lemma finalizes_via_end c w :
  finalizes c = true ->
  exists w', call' c w = end_' w'
    /\ same_request w' w
    /\ _statusCode (w_res w')
       = match c with CSendStatus code => code | _ => _statusCode (w_res w) end
    /\ (c = CEnd -> w' = w).
Proof.
  destruct c; try discriminate; intros _; cbn [call].
  - (* json *)
    unfold json. eexists. split; [reflexivity|]. split; [|split; [|discriminate]].
    + eapply same_request_trans; [apply same_request_default_type|].
      now split.
    + now rewrite default_type_status.
  - (* send *)
    unfold send.
    assert (Hfin : forall ct w0, same_request w0 w ->
              _statusCode (w_res w0) = _statusCode (w_res w) ->
              exists w', send_finish mime_lookup getStatusText ct w0 = end_' w'
                /\ same_request w' w
                /\ _statusCode (w_res w') = _statusCode (w_res w)
                /\ (CSend body = CEnd -> w' = w)).
    { intros ct w0 H0 Hs. unfold send_finish. eexists. split; [reflexivity|].
      split; [|split; [|discriminate]].
      - eapply same_request_trans; [apply same_request_default_type|exact H0].
      - now rewrite default_type_status. }
    assert (Hjson : exists w', json' body w = end_' w'
                /\ same_request w' w
                /\ _statusCode (w_res w') = _statusCode (w_res w)
                /\ (CSend body = CEnd -> w' = w)).
    { unfold json. eexists. split; [reflexivity|]. split; [|split; [|discriminate]].
      - eapply same_request_trans; [apply same_request_default_type|]. now split.
      - now rewrite default_type_status. }
    destruct (String.eqb (typeof body) "string").
    { apply Hfin; [now split|reflexivity]. }
    destruct (_ || _).
    + destruct body; try exact Hjson; (apply Hfin; [now split|reflexivity]).
    + apply Hfin; [apply same_request_refl|reflexivity].
  - (* sendStatus *)
    unfold sendStatus, send. cbn [typeof]. cbn [String.eqb Ascii.eqb Bool.eqb].
    unfold send_finish. eexists. split; [reflexivity|]. split; [|split; [|discriminate]].
    + eapply same_request_trans; [apply same_request_default_type|].
      split; try reflexivity. intros k Hk.
      exact (type_headers_other "text" w k Hk).
    + now rewrite default_type_status.
  - (* end *)
    exists w. repeat split; auto.
Qed.

(** ** After the first resolution *)

Lemma signal_run_reaction r w : signal (run_reaction r w) = signal w.
Proof.
  unfold run_reaction. destruct r; destruct (signal w) eqn:E; exact E.
Qed.

Lemma signal_run_reactions rs w :
  signal (foldl (fun w r => run_reaction r w) w rs) = signal w.
Proof.
  revert w. induction rs as [|r rs IH]; intros w; [reflexivity|].
  cbn [foldl]. now rewrite IH, signal_run_reaction.
Qed.

Lemma signal_drain w : signal (drain w) = signal w.
Proof.
  unfold drain. destruct (signal w) eqn:E; try exact E.
  - change (signal (foldl (fun w r => run_reaction r w) w (w_reactions w)) = Fulfilled r).
    now rewrite signal_run_reactions.
  - change (signal (foldl (fun w r => run_reaction r w) w (w_reactions w)) = Rejected).
    now rewrite signal_run_reactions.
Qed.

Lemma fire_fulfilled w r : signal w = Fulfilled r -> signal (fire w) = Fulfilled r.
Proof.
  intros Hs. unfold fire. destruct (next_timer _) as [[t d]|]; [|exact Hs].
  destruct t.
  - unfold response_timeout. cbn [w_res set_now disarm set_timers].
    unfold Defer.done. unfold signal in Hs. now rewrite Hs.
  - unfold fallback_timeout. cbn [w_resolved set_now disarm set_timers].
    destruct (w_resolved w); exact Hs.
Qed.

Lemma net_reply_fulfilled id res w r :
  signal w = Fulfilled r -> signal (net_reply id res w) = Fulfilled r.
Proof.
  intros Hs. unfold net_reply. destruct (bool_decide (id ∈ w_inflight w)); [|exact Hs].
  set (w1 := set_inflight _ w).
  assert (Hs1 : signal w1 = Fulfilled r) by exact Hs.
  rewrite Hs1.
  destruct (bool_decide _); [|exact Hs1].
  destruct res; [|exact Hs1].
  rewrite signal_resolve_settled; [exact Hs1|]. rewrite Hs1. discriminate.
Qed.

Lemma step_fulfilled e w r : signal w = Fulfilled r -> signal (step' e w) = Fulfilled r.
Proof.
  intros Hs. unfold step. rewrite signal_drain. destruct e.
  - rewrite call_settled; congruence.
  - now apply fire_fulfilled.
  - now apply net_reply_fulfilled.
Qed.

(** A fulfilled signal stays as it is, whatever happens next. *)
Lemma run_fulfilled es w r : signal w = Fulfilled r -> signal (run' es w) = Fulfilled r.
Proof.
  revert w. induction es as [|e es IH]; intros w Hs; [exact Hs|].
  cbn. apply IH. now apply step_fulfilled.
Qed.

(** C3. Resolution of a response builder is idempotent: the first of a
    sequence of calls to [end()], [json()] or [send()] (or [sendStatus()]) on
    a pending builder fulfils the deferred signal with the response it
    builds, and no later call on the builder, nor any later timer or network
    answer, changes the response the platform sees. *)
Theorem resolution_idempotent (w : World) (c : Call) (later : list Call) (es : list Event) :
  signal w = Pending ->
  finalizes c = true ->
  exists r,
    signal (call' c w) = Fulfilled r
    /\ signal (calls' later (call' c w)) = Fulfilled r
    /\ signal (run' es (calls' later (call' c w))) = Fulfilled r.
Proof.
  intros Hp Hc.
  destruct (finalizes_via_end c w Hc) as (w' & -> & Hsame & _).
  exists (finalized' w').
  assert (H1 : signal (end_' w') = Fulfilled (finalized' w')).
  { apply end_pending. now rewrite (same_signal _ _ Hsame). }
  assert (H2 : signal (calls' later (end_' w')) = Fulfilled (finalized' w')).
  { rewrite calls_settled; [exact H1|]. now rewrite H1. }
  repeat split; auto using run_fulfilled.
Qed.

(** ** Null-body statuses, HEAD requests and the default content type *)


(** ** The [X-Powered-By] header *)

Lemma end_headers_other w k :
  k <> "content-type" -> headers (w_res (end_' w)) !! k = headers (w_res w) !! k.
Proof.
  intros Hk. unfold end_, resolve.
  destruct (_ && _); destruct (negb _); cbn [upd_res w_res emit set_deferred headers];
    try reflexivity; exact (type_headers_other "text" _ k Hk).
Qed.

Lemma finalized_headers_other w k :
  k <> "content-type" -> resp_headers (finalized' w) !! k = headers (w_res w) !! k.
Proof.
  intros Hk. cbn [finalized resp_headers]. destruct (Headers.has _ _); [reflexivity|].
  unfold Headers.set. rewrite norm_content_type. now rewrite lookup_insert_ne.
Qed.

Lemma forward_headers input init w :
  headers (w_res (forward input init w)) = headers (w_res w).
Proof.
  unfold forward, resolve_with_nativeFetch.
  destruct input; destruct (nativeFetch _ _ _); reflexivity.
Qed.

Lemma forward_pending input init w :
  signal w = Pending -> signal (forward input init w) = Following (w_fetches w).
Proof.
  intros Hp. unfold forward, resolve_with_nativeFetch.
  destruct input; destruct (nativeFetch _ _ _); cbn [issue];
    rewrite resolve_pending; auto.
Qed.

Lemma call_keeps_powered_by c w :
  touches_powered_by c = false ->
  headers (w_res (call' c w)) !! "x-powered-by" = headers (w_res w) !! "x-powered-by".
Proof.
  intros Ht.
  destruct (finalizes c) eqn:Hf.
  { destruct (finalizes_via_end c w Hf) as (w' & -> & Hsame & _).
    rewrite end_headers_other by discriminate.
    now apply (same_headers _ _ Hsame). }
  destruct c; try discriminate; cbn [call]; try reflexivity.
  - now apply type_headers_other.
  - now rewrite forward_headers.
  - cbn in Ht. apply String.eqb_neq in Ht.
    cbn [upd_res w_res set_headers headers]. unfold Headers.set.
    now rewrite lookup_insert_ne.
  - cbn in Ht. apply String.eqb_neq in Ht.
    cbn [upd_res w_res set_headers headers]. unfold Headers.append.
    destruct (_ !! Headers.norm name); now rewrite lookup_insert_ne.
  - cbn in Ht. apply String.eqb_neq in Ht.
    cbn [upd_res w_res set_headers headers]. unfold Headers.delete.
    now rewrite lookup_delete_ne.
Qed.

(** Where a fulfilled signal comes from, across one call on the builder. *)
Lemma call_fulfilled_origin c w r :
  signal (call' c w) = Fulfilled r ->
  signal w = Fulfilled r
  \/ (signal w = Pending /\ exists w', same_request w' w /\ r = finalized' w').
Proof.
  intros Hs.
  destruct (signal w) eqn:Hw.
  2,3,4: left; rewrite call_settled in Hs; congruence.
  right. split; [reflexivity|].
  destruct (finalizes c) eqn:Hf.
  { destruct (finalizes_via_end c w Hf) as (w' & Heq & Hsame & _).
    exists w'. split; [exact Hsame|].
    rewrite Heq, end_pending in Hs; [congruence|].
    now rewrite (same_signal _ _ Hsame). }
  destruct c; try discriminate; cbn [call] in Hs.
  - change (signal w = Fulfilled r) in Hs. congruence.
  - change (signal w = Fulfilled r) in Hs. congruence.
  - rewrite forward_pending in Hs; [discriminate|exact Hw].
  - change (signal w = Fulfilled r) in Hs. congruence.
  - change (signal w = Fulfilled r) in Hs. congruence.
  - change (signal w = Fulfilled r) in Hs. congruence.
Qed.

Lemma inv_same_res R w w' :
  w_res w' = w_res w -> powered_by_inv R w -> powered_by_inv R w'.
Proof. unfold powered_by_inv, signal. now intros ->. Qed.

Lemma inv_call R c w :
  touches_powered_by c = false -> powered_by_inv R w -> powered_by_inv R (call' c w).
Proof.
  intros Ht [Hh Hr]. split.
  - now rewrite call_keeps_powered_by.
  - intros r Hs. apply call_fulfilled_origin in Hs as [Hs | (_ & w' & Hsame & ->)].
    + now apply Hr.
    + left. rewrite finalized_headers_other by discriminate.
      now rewrite (same_headers _ _ Hsame) by discriminate.
Qed.

Lemma inv_calls R cs w :
  forallb (fun c => negb (touches_powered_by c)) cs = true ->
  powered_by_inv R w -> powered_by_inv R (calls' cs w).
Proof.
  revert w. induction cs as [|c cs IH]; intros w Hall Hinv; [exact Hinv|].
  cbn in Hall. apply andb_true_iff in Hall as [Hc Hall].
  apply negb_true_iff in Hc.
  change (powered_by_inv R (calls' cs (call' c w))). now apply IH, inv_call.
Qed.

Lemma w_res_run_reactions rs w :
  w_res (foldl (fun w r => run_reaction r w) w rs) = w_res w.
Proof.
  revert w. induction rs as [|r rs IH]; intros w; [reflexivity|].
  cbn [foldl]. rewrite IH. unfold run_reaction.
  destruct r, (signal w); reflexivity.
Qed.

Lemma w_res_drain w : w_res (drain w) = w_res w.
Proof.
  unfold drain. destruct (signal w); try reflexivity;
    cbn [set_reactions w_res]; apply w_res_run_reactions.
Qed.

Lemma inv_fire R w : powered_by_inv R w -> powered_by_inv R (fire w).
Proof.
  intros Hinv. unfold fire. destruct (next_timer _) as [[t d]|]; [|exact Hinv].
  set (w1 := set_now _ _).
  assert (H1 : powered_by_inv R w1) by (now apply (inv_same_res R w)).
  destruct t.
  - unfold response_timeout. destruct (Defer.done _) eqn:Hd; [exact H1|].
    apply done_signal in Hd. destruct H1 as [Hh Hr]. split.
    + now rewrite forward_headers.
    + intros r Hs. rewrite forward_pending in Hs; [discriminate|exact Hd].
  - unfold fallback_timeout. destruct (w_resolved w1); [exact H1|].
    now apply (inv_same_res R w1).
Qed.

Lemma inv_net_reply (R : Response -> Prop) id res w :
  (forall r, res = Some r -> R r) ->
  powered_by_inv R w -> powered_by_inv R (net_reply id res w).
Proof.
  intros HR [Hh Hr]. unfold net_reply.
  destruct (bool_decide (id ∈ w_inflight w)); [|now split].
  set (w1 := set_inflight _ w).
  assert (H1 : powered_by_inv R w1) by (now split).
  clearbody w1. clear Hh Hr.
  set (w2 := match signal w1 with Following _ => _ | _ => w1 end).
  assert (H2 : powered_by_inv R w2).
  { subst w2. destruct (signal w1) eqn:Hs; try exact H1.
    destruct (Nat.eqb _ _); [|exact H1].
    destruct H1 as [Hh Hr]. split; [exact Hh|].
    intros r. unfold signal. cbn. destruct res; [|discriminate].
    intros [= <-]. right. now apply HR. }
  clearbody w2.
  destruct (bool_decide _); [|exact H2].
  destruct res as [r0|]; [|exact H2].
  destruct H2 as [Hh Hr]. split; [exact Hh|].
  intros r Hs. destruct (signal w2) eqn:Hw.
  - rewrite resolve_pending in Hs by exact Hw. injection Hs as <-. right. now apply HR.
  - rewrite signal_resolve_settled in Hs by (rewrite Hw; discriminate). congruence.
  - rewrite signal_resolve_settled in Hs by (rewrite Hw; discriminate).
    apply Hr. congruence.
  - rewrite signal_resolve_settled in Hs by (rewrite Hw; discriminate). congruence.
Qed.

Lemma inv_step (R : Response -> Prop) e w :
  match e with
  | EvHandler c => touches_powered_by c = false
  | EvNetReply _ (Some r) => R r
  | _ => True
  end ->
  powered_by_inv R w -> powered_by_inv R (step' e w).
Proof.
  intros He Hinv. unfold step. apply (inv_same_res R _ _ (w_res_drain _)).
  destruct e as [c| |id res].
  - now apply inv_call.
  - now apply inv_fire.
  - apply inv_net_reply; [|exact Hinv]. intros r ->. exact He.
Qed.

Lemma inv_some R event routers w :
  forallb (fun rt => forallb (fun c => negb (touches_powered_by c)) (_match rt event).2)
          routers = true ->
  powered_by_inv R w ->
  powered_by_inv R (some (match_router mime_lookup getStatusText event) routers w).2.
Proof.
  revert w. induction routers as [|rt routers IH]; intros w Hall Hinv; [exact Hinv|].
  cbn in Hall. apply andb_true_iff in Hall as [Hrt Hall].
  cbn [some]. unfold match_router at 1.
  destruct (_match rt event) as [matched cs] eqn:Hm. cbn [snd] in Hrt.
  assert (H1 : powered_by_inv R (calls' cs (emit (Match (rid rt)) w))).
  { apply inv_calls; [exact Hrt|]. now apply (inv_same_res R w). }
  destruct matched; [exact H1|]. now apply IH.
Qed.

Lemma new_powered_by event g now :
  headers (w_res (MockerResponse_new event g now)) !! "x-powered-by" = Some "ServiceMocker".
Proof. reflexivity. Qed.

Lemma inv_on_fetch R routers event g now :
  forallb (fun rt => forallb (fun c => negb (touches_powered_by c)) (_match rt event).2)
          routers = true ->
  powered_by_inv R (on_fetch' routers event g now).
Proof.
  intros Hall. unfold on_fetch.
  apply (inv_same_res R _ _ (w_res_drain _)).
  eapply inv_same_res; [reflexivity|].
  apply inv_some; [exact Hall|].
  split; [apply new_powered_by|]. intros r. discriminate.
Qed.

Lemma inv_run (R : Response -> Prop) es w :
  forallb (fun e => match e with
                    | EvHandler c => negb (touches_powered_by c)
                    | _ => true
                    end) es = true ->
  (forall id r, In (EvNetReply id (Some r)) es -> R r) ->
  powered_by_inv R w -> powered_by_inv R (run' es w).
Proof.
  revert w. induction es as [|e es IH]; intros w Hall HR Hinv; [exact Hinv|].
  cbn in Hall. apply andb_true_iff in Hall as [He Hall].
  change (powered_by_inv R (run' es (step' e w))).
  apply IH; [exact Hall| |].
  - intros id r Hin. apply (HR id r). now right.
  - apply inv_step; [|exact Hinv].
    destruct e as [c| |id [r|]]; auto.
    + now apply negb_true_iff in He.
    + apply (HR id r). now left.
Qed.

(** C10. The header map of every response builder is seeded at
    construction with [X-Powered-By: ServiceMocker]; when no handler call
    sets, extends or deletes that header, the response of a fulfilled signal
    carries it, unless that response is not one the builder finalized but
    the answer of a network request. *)
Theorem powered_by_header (routers : list MockerRouter) (event : FetchEvent)
    (g : GlobalContext) (now : Z) (es : list Event) (r : Response) :
  keeps_powered_by routers event es = true ->
  signal (run' es (on_fetch' routers event g now)) = Fulfilled r ->
  Headers.get "X-Powered-By" (headers (w_res (MockerResponse_new event g now)))
  = Some "ServiceMocker"
  /\ (Headers.get "X-Powered-By" (resp_headers r) = Some "ServiceMocker"
      \/ exists id, In (EvNetReply id (Some r)) es).
Proof.
  intros Hkeep Hs. split; [reflexivity|].
  apply andb_true_iff in Hkeep as [Hrouters Hes].
  assert (Hinv : powered_by_inv (fun r => exists id, In (EvNetReply id (Some r)) es)
                                (run' es (on_fetch' routers event g now))).
  { apply inv_run; [exact Hes|eauto|]. now apply inv_on_fetch. }
  destruct Hinv as [_ Hr]. exact (Hr r Hs).
Qed.

(** ** What is added to the trace *)

Lemma extends_refl w : extends_quietly w w.
Proof. exists []. now rewrite app_nil_r. Qed.

Lemma extends_trans w1 w2 w3 :
  extends_quietly w1 w2 -> extends_quietly w2 w3 -> extends_quietly w1 w3.
Proof.
  intros (x1 & E1 & Q1) (x2 & E2 & Q2). exists (x2 ++ x1)%list. split.
  - now rewrite E1, E2, app_assoc.
  - now rewrite forallb_app, Q1, Q2.
Qed.

Lemma extends_same_trace w' w : w_trace w' = w_trace w -> extends_quietly w' w.
Proof. intros E. exists []. now rewrite app_nil_r. Qed.

Lemma extends_emit e w : quiet e = true -> extends_quietly (emit e w) w.
Proof. intros Q. exists [e]. split; [reflexivity|]. cbn. now rewrite Q. Qed.

Lemma end_extends w : extends_quietly (end_' w) w.
Proof.
  unfold end_. eapply extends_trans; [apply extends_same_trace; reflexivity|].
  destruct (_ && _); destruct (negb _);
    try (apply extends_same_trace; reflexivity);
    (eapply extends_trans; [apply extends_same_trace; reflexivity|]);
    now apply extends_emit.
Qed.

Lemma forward_trace input init w :
  w_trace (forward input init w)
  = (w_trace w ++ [Fetch (w_fetches w)
                     (nativeFetch input
                        (Some (match input with
                               | InfoRequest _ => init
                               | InfoUrl _ =>
                                   forward_options (request (_event (w_res w))) init
                               end)) (w_global w)).1])%list.
Proof.
  unfold forward, resolve_with_nativeFetch.
  destruct input; destruct (nativeFetch _ _ _); reflexivity.
Qed.

Lemma forward_extends input init w : extends_quietly (forward input init w) w.
Proof. eexists. split; [apply forward_trace|reflexivity]. Qed.

Lemma call_extends c w : extends_quietly (call' c w) w.
Proof.
  destruct (finalizes c) eqn:Hf.
  { destruct (finalizes_via_end c w Hf) as (w' & -> & Hsame & _).
    eapply extends_trans; [apply end_extends|].
    apply extends_same_trace. now apply same_request_trace. }
  destruct c; try discriminate; cbn [call];
    try (apply extends_same_trace; reflexivity).
  apply forward_extends.
Qed.

Lemma calls_extends cs w : extends_quietly (calls' cs w) w.
Proof.
  revert w. induction cs as [|c cs IH]; intros w; [apply extends_refl|].
  change (extends_quietly (calls' cs (call' c w)) w).
  eapply extends_trans; [apply IH|apply call_extends].
Qed.

Lemma run_reactions_extends rs w :
  extends_quietly (foldl (fun w r => run_reaction r w) w rs) w.
Proof.
  revert w. induction rs as [|r rs IH]; intros w; [apply extends_refl|].
  cbn [foldl]. eapply extends_trans; [apply IH|].
  unfold run_reaction. destruct r, (signal w);
    first [ apply extends_refl
          | apply extends_same_trace; reflexivity
          | exists [ClearTimeout ResponseTimer]; split; reflexivity ].
Qed.

Lemma drain_extends w : extends_quietly (drain w) w.
Proof.
  unfold drain. destruct (signal w); try apply extends_refl;
    (eapply extends_trans; [apply extends_same_trace; reflexivity|]);
    apply run_reactions_extends.
Qed.

Lemma fire_extends w : extends_quietly (fire w) w.
Proof.
  unfold fire. destruct (next_timer _) as [[t d]|]; [|apply extends_refl].
  set (w1 := set_now _ _).
  assert (H1 : extends_quietly w1 w) by (apply extends_same_trace; reflexivity).
  eapply extends_trans; [|exact H1]. destruct t.
  - unfold response_timeout. destruct (Defer.done _); [apply extends_refl|].
    eapply extends_trans; [apply forward_extends|]. now apply extends_emit.
  - unfold fallback_timeout. destruct (w_resolved w1); [apply extends_refl|].
    eexists. split; [reflexivity|reflexivity].
Qed.

Lemma net_reply_extends id res w : extends_quietly (net_reply id res w) w.
Proof.
  apply extends_same_trace. unfold net_reply.
  destruct (bool_decide _); [|reflexivity].
  set (w1 := set_inflight _ w).
  assert (E : w_trace (match signal w1 with
                       | Following i =>
                           if Nat.eqb i id
                           then upd_res (set_deferred
                                  (Defer.mk match res with
                                            | Some r => Fulfilled r
                                            | None => Rejected
                                            end)) w1
                           else w1
                       | _ => w1
                       end) = w_trace w).
  { destruct (signal w1); try reflexivity. now destruct (Nat.eqb _ _). }
  destruct (bool_decide _); [|exact E]. destruct res; exact E.
Qed.

Lemma step_extends e w : extends_quietly (step' e w) w.
Proof.
  unfold step. eapply extends_trans; [apply drain_extends|].
  destruct e; [apply call_extends|apply fire_extends|apply net_reply_extends].
Qed.

Lemma run_extends es w : extends_quietly (run' es w) w.
Proof.
  revert w. induction es as [|e es IH]; intros w; [apply extends_refl|].
  change (extends_quietly (run' es (step' e w)) w).
  eapply extends_trans; [apply IH|apply step_extends].
Qed.

Lemma quiet_respondWith extra :
  forallb quiet extra = true -> respondWith_calls extra = [].
Proof.
  induction extra as [|e extra IH]; [reflexivity|].
  intros H. cbn in H. apply andb_true_iff in H as [He H].
  change (respondWith_calls (e :: extra))
    with ((match e with RespondWith p => [p] | _ => [] end) ++ respondWith_calls extra)%list.
  rewrite (IH H). now destruct e.
Qed.

Lemma quiet_asked extra : forallb quiet extra = true -> asked extra = [].
Proof.
  induction extra as [|e extra IH]; [reflexivity|].
  intros H. cbn in H. apply andb_true_iff in H as [He H].
  change (asked (e :: extra))
    with ((match e with Match i => [i] | _ => [] end) ++ asked extra)%list.
  rewrite (IH H). now destruct e.
Qed.

Lemma respondWith_calls_app a b :
  respondWith_calls (a ++ b) = (respondWith_calls a ++ respondWith_calls b)%list.
Proof. apply flat_map_app. Qed.

Lemma asked_app a b : asked (a ++ b) = (asked a ++ asked b)%list.
Proof. apply flat_map_app. Qed.

Lemma extends_respondWith w' w :
  extends_quietly w' w -> respondWith_calls (w_trace w') = respondWith_calls (w_trace w).
Proof.
  intros (extra & -> & Q).
  now rewrite respondWith_calls_app, (quiet_respondWith extra Q), app_nil_r.
Qed.

Lemma extends_asked w' w : extends_quietly w' w -> asked (w_trace w') = asked (w_trace w).
Proof.
  intros (extra & -> & Q). now rewrite asked_app, (quiet_asked extra Q), app_nil_r.
Qed.

(** ** The dispatcher *)

Lemma match_router_trace event rt w :
  exists extra,
    w_trace (match_router mime_lookup getStatusText event rt w).2
    = (w_trace w ++ Match (rid rt) :: extra)%list
    /\ forallb quiet extra = true.
Proof.
  unfold match_router. destruct (_match rt event) as [matched cs]. cbn [snd].
  destruct (calls_extends cs (emit (Match (rid rt)) w)) as (extra & E & Q).
  exists extra. split; [|exact Q]. rewrite E. cbn [emit w_trace].
  now rewrite <- app_assoc.
Qed.

Lemma match_router_result event rt w :
  (match_router mime_lookup getStatusText event rt w).1 = (_match rt event).1.
Proof. unfold match_router. now destruct (_match rt event). Qed.

Lemma some_asked event routers w :
  asked (w_trace (some (match_router mime_lookup getStatusText event) routers w).2)
  = (asked (w_trace w) ++ map rid (until_match event routers))%list.
Proof.
  revert w. induction routers as [|rt routers IH]; intros w.
  - cbn. now rewrite app_nil_r.
  - cbn [some until_match].
    pose proof (match_router_result event rt w) as Hres.
    destruct (match_router_trace event rt w) as (extra & E & Q).
    destruct (match_router mime_lookup getStatusText event rt w) as [matched w1].
    cbn [fst snd] in *. rewrite <- Hres.
    assert (H1 : asked (w_trace w1) = (asked (w_trace w) ++ [rid rt])%list).
    { rewrite E, asked_app. f_equal.
      change (asked (Match (rid rt) :: extra)) with (rid rt :: asked extra).
      now rewrite (quiet_asked extra Q). }
    destruct matched.
    + cbn [snd map]. exact H1.
    + rewrite IH, H1. cbn [map]. now rewrite <- app_assoc.
Qed.

Lemma some_respondWith event routers w :
  respondWith_calls
    (w_trace (some (match_router mime_lookup getStatusText event) routers w).2)
  = respondWith_calls (w_trace w).
Proof.
  revert w. induction routers as [|rt routers IH]; intros w; [reflexivity|].
  cbn [some].
  destruct (match_router_trace event rt w) as (extra & E & Q).
  destruct (match_router mime_lookup getStatusText event rt w) as [matched w1].
  cbn [snd] in *.
  assert (H1 : respondWith_calls (w_trace w1) = respondWith_calls (w_trace w)).
  { rewrite E, respondWith_calls_app.
    change (respondWith_calls (Match (rid rt) :: extra)) with (respondWith_calls extra).
    now rewrite (quiet_respondWith extra Q), app_nil_r. }
  destruct matched; [exact H1|]. now rewrite IH.
Qed.


(** C2, as the code has it. For every intercepted fetch event
    [respondWith] is called twice, both times within the listener's own
    task: by the constructor of the response builder with the deferred
    signal's promise, then by the listener with the promise derived from it
    by [then]; nothing that happens later calls it again. *)
Theorem respondWith_called_twice (routers : list MockerRouter) (event : FetchEvent)
    (g : GlobalContext) (now : Z) (es : list Event) :
  respondWith_calls (w_trace (on_fetch' routers event g now))
  = [DeferredPromise; DeferredPromiseThen]
  /\ respondWith_calls (w_trace (run' es (on_fetch' routers event g now)))
     = [DeferredPromise; DeferredPromiseThen].
Proof.
  assert (H : respondWith_calls (w_trace (on_fetch' routers event g now))
              = [DeferredPromise; DeferredPromiseThen]).
  { unfold on_fetch.
    rewrite (extends_respondWith _ _ (drain_extends _)).
    unfold setTimeout at 1. cbn [emit w_trace set_timers].
    rewrite respondWith_calls_app.
    change (respondWith_calls [SetTimeout FallbackTimer 2000]) with (@nil PromiseRef).
    rewrite app_nil_r, some_respondWith. reflexivity. }
  split; [exact H|].
  now rewrite (extends_respondWith _ _ (run_extends es _)).
Qed.

(** ** Forwarding *)

Lemma nativeFetch_spec input init g :
  (nativeFetch input init g).2 = g
  /\ call_input (nativeFetch input init g).1 = input
  /\ call_init (nativeFetch input init g).1 = init
  /\ call_route (nativeFetch input init g).1 <> ToInterceptor
  /\ (has_transport g = true -> call_route (nativeFetch input init g).1 = ToNetwork).
Proof.
  destruct g as [f x ua]. unfold nativeFetch, has_transport.
  destruct f, x; cbn; repeat split; congruence.
Qed.

Lemma forward_global input init w : w_global (forward input init w) = w_global w.
Proof.
  unfold forward, resolve_with_nativeFetch.
  destruct input;
    [pose proof (nativeFetch_spec (InfoUrl url)
                   (Some (forward_options (request (_event (w_res w))) init))
                   (w_global w)) as (Hg & _)
    |pose proof (nativeFetch_spec (InfoRequest r) (Some init) (w_global w)) as (Hg & _)];
    destruct (nativeFetch _ _ _) as [c g']; cbn in *; exact Hg.
Qed.


(** ** [send] and [json] *)

Lemma has_after_set v h : Headers.has "content-type" (Headers.set "content-type" v h) = true.
Proof.
  unfold Headers.has, Headers.set. apply bool_decide_eq_true.
  rewrite lookup_insert_eq. eauto.
Qed.

Lemma send_finish_pending ct w :
  signal w = Pending ->
  signal (send_finish mime_lookup getStatusText ct w)
  = Fulfilled
      (mkResponse
         (if discards_body w then JUndefined else _body (w_res w))
         (if Headers.has "content-type" (headers (w_res w)) then headers (w_res w)
          else Headers.set "content-type"
                 (if Str.lacks "/" ct then mime_lookup ct else ct) (headers (w_res w)))
         (_statusCode (w_res w))
         (_getStatusText getStatusText (w_res w))).
Proof.
  intros Hp. unfold send_finish.
  destruct (Headers.has "content-type" (headers (w_res w))) eqn:Hh; cbn [negb].
  - rewrite end_pending by exact Hp. unfold finalized. now rewrite Hh.
  - rewrite end_pending by exact Hp. unfold finalized.
    cbn [type upd_res w_res set_headers headers]. now rewrite has_after_set.
Qed.

Lemma json_as_send_finish body w :
  json' body w
  = send_finish mime_lookup getStatusText "json"
      (upd_res (set_body (match JSON.stringify body with
                          | Some s => JString s
                          | None => JUndefined
                          end)) w).
Proof. reflexivity. Qed.

Lemma send_as_send_finish body w :
  send' body w
  = send_finish mime_lookup getStatusText (send_content_type body)
      (upd_res (set_body (send_body body (_body (w_res w)))) w).
Proof.
  assert (Hid : upd_res (set_body (_body (w_res w))) w = w).
  { now destruct w as [g n [h b c d e] rs tr ts re nf fl fb]. }
  destruct body; unfold send; cbn [typeof String.eqb Ascii.eqb Bool.eqb orb];
    unfold send_body; cbn [shape send_content_type]; try reflexivity;
    now rewrite Hid.
Qed.

(** C6, as the code has it. [send(body)] dispatches on the shape of the
    body: a string is kept and typed as html; a Blob is kept and typed by
    its own type, or as bin when that is empty, an ArrayBuffer as bin; null,
    booleans, numbers, arrays and plain objects go to [json()]; for every
    other shape (undefined, a function, a symbol) the call is not rejected:
    the body set before is left as it is, the type defaults to text, and
    the response is finalized like the others. The content type is set only
    when none was set before. *)
Theorem send_dispatch (w : World) (body : JsValue) :
  signal w = Pending ->
  exists r,
    signal (send' body w) = Fulfilled r
    /\ resp_status r = _statusCode (w_res w)
    /\ resp_body r
       = (if discards_body w then JUndefined else send_body body (_body (w_res w)))
    /\ resp_headers r
       = (if Headers.has "content-type" (headers (w_res w)) then headers (w_res w)
          else Headers.set "content-type"
                 (if Str.lacks "/" (send_content_type body)
                  then mime_lookup (send_content_type body)
                  else send_content_type body) (headers (w_res w)))
    /\ (shape body = ShapeJson -> send' body w = json' body w).
Proof.
  intros Hp. eexists. split.
  { rewrite send_as_send_finish. apply send_finish_pending. exact Hp. }
  cbn [resp_status resp_body resp_headers upd_res w_res set_body _statusCode _body headers].
  repeat split.
  intros Hshape. rewrite send_as_send_finish, json_as_send_finish.
  unfold send_body. rewrite Hshape. destruct body; try discriminate; reflexivity.
Qed.

(** ** The schedule of a request *)

Lemma same_schedule_refl w : same_schedule w w.
Proof. now split. Qed.

Lemma same_schedule_trans w1 w2 w3 :
  same_schedule w1 w2 -> same_schedule w2 w3 -> same_schedule w1 w3.
Proof. intros [] []. split; congruence. Qed.

Lemma end_schedule w : same_schedule (end_' w) w.
Proof. unfold end_. destruct (_ && _); destruct (negb _); now split. Qed.

Lemma forward_schedule input init w : same_schedule (forward input init w) w.
Proof.
  unfold forward, resolve_with_nativeFetch.
  destruct input; destruct (nativeFetch _ _ _); now split.
Qed.

Lemma same_request_schedule w' w : same_request w' w -> same_schedule w' w.
Proof.
  intros H. pose proof (same_outside _ _ H (w_res w)) as E. split.
  - now apply (f_equal w_timers) in E.
  - now apply (f_equal w_reactions) in E.
  - now apply (f_equal w_resolved) in E.
  - now apply (f_equal w_now) in E.
  - now apply same_event.
Qed.

Lemma call_schedule c w : same_schedule (call' c w) w.
Proof.
  destruct (finalizes c) eqn:Hf.
  { destruct (finalizes_via_end c w Hf) as (w' & -> & Hsame & _).
    eapply same_schedule_trans; [apply end_schedule|].
    now apply same_request_schedule. }
  destruct c; try discriminate; cbn [call]; try (now split).
  apply forward_schedule.
Qed.

Lemma calls_schedule cs w : same_schedule (calls' cs w) w.
Proof.
  revert w. induction cs as [|c cs IH]; intros w; [apply same_schedule_refl|].
  change (same_schedule (calls' cs (call' c w)) w).
  eapply same_schedule_trans; [apply IH|apply call_schedule].
Qed.

Lemma net_reply_schedule id res w : same_schedule (net_reply id res w) w.
Proof.
  unfold net_reply. destruct (bool_decide _); [|apply same_schedule_refl].
  set (w1 := set_inflight _ w).
  assert (H1 : same_schedule w1 w) by now split.
  set (w2 := match signal w1 with Following _ => _ | _ => w1 end).
  assert (H2 : same_schedule w2 w).
  { subst w2. destruct (signal w1); try exact H1.
    destruct (Nat.eqb _ _); [|exact H1]. now split. }
  clearbody w2.
  destruct (bool_decide _); [|exact H2]. destruct res; [|exact H2].
  eapply same_schedule_trans; [|exact H2]. now split.
Qed.

Lemma armed_ok_same event now w' w :
  same_schedule w' w -> armed_ok event now w -> armed_ok event now w'.
Proof.
  intros [Ht _ _ _ He] [H1 H2]. split; [congruence|]. now rewrite Ht.
Qed.

Lemma In_disarm t u d w :
  In (u, d) (w_timers (disarm t w)) -> In (u, d) (w_timers w) /\ u <> t.
Proof.
  unfold disarm. cbn [set_timers w_timers]. rewrite <- list_elem_of_In.
  rewrite list_elem_of_filter, list_elem_of_In. cbn.
  intros [Hne Hin]. split; [exact Hin|]. intros ->. now destruct t.
Qed.

Lemma fire_event w : _event (w_res (fire w)) = _event (w_res w).
Proof.
  unfold fire. destruct (next_timer _) as [[t d]|]; [|reflexivity]. destruct t.
  - unfold response_timeout. destruct (Defer.done _); [reflexivity|].
    now rewrite (same_event' _ _ (forward_schedule _ _ _)).
  - unfold fallback_timeout. cbn [w_resolved set_now disarm set_timers].
    now destruct (w_resolved w).
Qed.

Lemma fire_reactions w : w_reactions (fire w) = w_reactions w.
Proof.
  unfold fire. destruct (next_timer _) as [[t d]|]; [|reflexivity]. destruct t.
  - unfold response_timeout. destruct (Defer.done _); [reflexivity|].
    now rewrite (same_reactions _ _ (forward_schedule _ _ _)).
  - unfold fallback_timeout. cbn [w_resolved set_now disarm set_timers].
    now destruct (w_resolved w).
Qed.

Lemma fire_timers w u d : In (u, d) (w_timers (fire w)) -> In (u, d) (w_timers w).
Proof.
  unfold fire. destruct (next_timer _) as [[t d0]|]; [|auto]. destruct t.
  - unfold response_timeout. destruct (Defer.done _).
    + intros H. now apply (In_disarm ResponseTimer u d w).
    + rewrite (same_timers _ _ (forward_schedule _ _ _)).
      intros H. now apply (In_disarm ResponseTimer u d w).
  - unfold fallback_timeout. cbn [w_resolved set_now].
    destruct (w_resolved (disarm FallbackTimer w));
      intros H; now apply (In_disarm FallbackTimer u d w).
Qed.

Lemma fire_signal w : signal w <> Pending -> signal (fire w) = signal w.
Proof.
  intros Hs. unfold fire. destruct (next_timer _) as [[t d]|]; [|reflexivity].
  destruct t.
  - unfold response_timeout. cbn [w_res set_now disarm set_timers].
    destruct (Defer.done _) eqn:Hd; [reflexivity|].
    apply done_signal in Hd. contradiction.
  - unfold fallback_timeout. cbn [w_resolved set_now disarm set_timers].
    now destruct (w_resolved w).
Qed.

Lemma net_reply_settled id res w :
  settled (signal w) = true -> signal (net_reply id res w) = signal w.
Proof.
  intros Hs. unfold net_reply. destruct (bool_decide (id ∈ w_inflight w)); [|reflexivity].
  set (w1 := set_inflight _ w).
  assert (E1 : signal w1 = signal w) by reflexivity.
  destruct (signal w) eqn:Hw; try discriminate; rewrite E1.
  - destruct (bool_decide _); [|exact E1]. destruct res; [|exact E1].
    rewrite signal_resolve_settled; [exact E1|]. rewrite E1. discriminate.
  - destruct (bool_decide _); [|exact E1]. destruct res; [|exact E1].
    rewrite signal_resolve_settled; [exact E1|]. rewrite E1. discriminate.
Qed.

Lemma step_settled e w : settled (signal w) = true -> signal (step' e w) = signal w.
Proof.
  intros Hs. unfold step. rewrite signal_drain. destruct e.
  - apply call_settled. intros E. now rewrite E in Hs.
  - apply fire_signal. intros E. now rewrite E in Hs.
  - now apply net_reply_settled.
Qed.

Lemma run_reaction_timers r w u d :
  In (u, d) (w_timers (run_reaction r w)) -> In (u, d) (w_timers w).
Proof.
  unfold run_reaction. destruct r, (signal w); auto;
    intros H; now apply (In_disarm ResponseTimer u d w).
Qed.

Lemma run_reaction_cleared r w : cleared w -> cleared (run_reaction r w).
Proof.
  intros [Hno Hlog]. split.
  - intros Hin. apply Hno. apply in_map_iff in Hin as ([u d] & Hu & Hin).
    cbn in Hu. subst u. apply in_map_iff. exists (ResponseTimer, d).
    split; [reflexivity|]. now apply (run_reaction_timers r).
  - destruct (run_reactions_extends [r] w) as (extra & E & _).
    cbn [foldl] in E. rewrite E. apply in_or_app. now left.
Qed.

Lemma clear_timer_clears w : settled (signal w) = true -> cleared (run_reaction ClearTimer w).
Proof.
  intros Hs. unfold run_reaction.
  assert (H : cleared (clearTimeout ResponseTimer w)).
  { split.
    - intros Hin. apply in_map_iff in Hin as ([u d] & Hu & Hin).
      cbn in Hu. subst u. cbn [clearTimeout emit w_timers] in Hin.
      now apply In_disarm in Hin as [_ Hne].
    - cbn [clearTimeout emit w_trace]. apply in_or_app. right. now left. }
  destruct (signal w); try discriminate; exact H.
Qed.

Lemma run_reactions_cleared rs w :
  settled (signal w) = true ->
  cleared w \/ In ClearTimer rs ->
  cleared (foldl (fun w r => run_reaction r w) w rs).
Proof.
  revert w. induction rs as [|r rs IH]; intros w Hs [Hc | Hin].
  - exact Hc.
  - destruct Hin.
  - cbn [foldl]. apply IH; [now rewrite signal_run_reaction|].
    left. now apply run_reaction_cleared.
  - cbn [foldl]. apply IH; [now rewrite signal_run_reaction|].
    destruct Hin as [-> | Hin]; [left; now apply clear_timer_clears|now right].
Qed.

Lemma run_reactions_timers rs w u d :
  In (u, d) (w_timers (foldl (fun w r => run_reaction r w) w rs)) -> In (u, d) (w_timers w).
Proof.
  revert w. induction rs as [|r rs IH]; intros w; [auto|].
  cbn [foldl]. intros H. apply IH in H. now apply (run_reaction_timers r).
Qed.

Lemma drain_scheduled event now w :
  armed_ok event now w ->
  (if settled (signal w) then cleared w \/ In ClearTimer (w_reactions w)
   else In ClearTimer (w_reactions w)) ->
  scheduled event now (drain w).
Proof.
  intros [He Ht] Hre. unfold scheduled.
  assert (Ha : armed_ok event now (drain w)).
  { split; [now rewrite w_res_drain|].
    intros t d. unfold drain.
    destruct (signal w); auto; cbn [set_reactions w_timers];
      intros H; apply run_reactions_timers in H; auto. }
  split; [exact Ha|]. rewrite signal_drain. unfold drain.
  destruct (signal w) eqn:Hs; cbn [settled] in Hre; try exact Hre.
  - split; [reflexivity|].
    apply (run_reactions_cleared (w_reactions w) w); [now rewrite Hs|exact Hre].
  - split; [reflexivity|].
    apply (run_reactions_cleared (w_reactions w) w); [now rewrite Hs|exact Hre].
Qed.

Lemma some_schedule event routers w :
  same_schedule (some (match_router mime_lookup getStatusText event) routers w).2 w.
Proof.
  revert w. induction routers as [|rt routers IH]; intros w; [apply same_schedule_refl|].
  cbn [some]. unfold match_router at 1. destruct (_match rt event) as [matched cs].
  assert (H1 : same_schedule (calls' cs (emit (Match (rid rt)) w)) w).
  { eapply same_schedule_trans; [apply calls_schedule|now split]. }
  destruct matched; [exact H1|].
  eapply same_schedule_trans; [apply IH|exact H1].
Qed.

Lemma on_fetch_scheduled routers event g now :
  scheduled event now (on_fetch' routers event g now).
Proof.
  unfold on_fetch.
  set (w0 := set_reactions _ (emit (RespondWith DeferredPromiseThen) _)).
  pose proof (some_schedule event routers w0) as [Ht Hr _ _ He].
  set (w1 := (some _ routers w0).2) in *.
  apply drain_scheduled.
  - split; [exact He|].
    intros t d. unfold setTimeout. cbn [emit set_timers w_timers w_now].
    rewrite Ht. cbn. intros [[= <- <-] | [[= <- <-] | []]]; [reflexivity|].
    f_equal.
    change (w_now w1) with (w_now (some (match_router mime_lookup getStatusText event)
                                     routers w0).2).
    now rewrite (same_now _ _ (some_schedule event routers w0)).
  - assert (Hin : In ClearTimer (w_reactions (setTimeout FallbackTimer 2000 w1))).
    { unfold setTimeout. cbn [emit set_timers w_reactions]. rewrite Hr.
      cbn. now left. }
    destruct (settled _); [now right|exact Hin].
Qed.

Lemma step_scheduled event now e w :
  scheduled event now w -> scheduled event now (step' e w).
Proof.
  intros [Ha Hm]. unfold step.
  set (w1 := match e with EvHandler c => call' c w | EvTimer => fire w
                        | EvNetReply id r => net_reply id r w end).
  assert (Hre : w_reactions w1 = w_reactions w).
  { subst w1. destruct e; [apply call_schedule|apply fire_reactions|apply net_reply_schedule]. }
  assert (Hti : forall u d, In (u, d) (w_timers w1) -> In (u, d) (w_timers w)).
  { subst w1. destruct e.
    - now rewrite (same_timers _ _ (call_schedule c w)).
    - apply fire_timers.
    - now rewrite (same_timers _ _ (net_reply_schedule id r w)). }
  assert (Hev : _event (w_res w1) = _event (w_res w)).
  { subst w1. destruct e; [apply call_schedule|apply fire_event|apply net_reply_schedule]. }
  assert (Hext : extends_quietly w1 w).
  { subst w1. destruct e; [apply call_extends|apply fire_extends|apply net_reply_extends]. }
  apply drain_scheduled.
  - destruct Ha as [He Ht]. split; [congruence|]. intros t d H. apply Ht. now apply Hti.
  - destruct (settled (signal w)) eqn:Hs.
    + assert (E : signal w1 = signal w).
      { subst w1. destruct e.
        - apply call_settled. intros E. now rewrite E in Hs.
        - apply fire_signal. intros E. now rewrite E in Hs.
        - now apply net_reply_settled. }
      rewrite E, Hs. left.
      assert (Hc : cleared w).
      { destruct (signal w); try discriminate; now destruct Hm as (_ & ? & ?). }
      destruct Hc as [Hno Hlog]. split.
      * intros Hin. apply Hno. apply in_map_iff in Hin as ([u d] & Hu & Hin).
        apply in_map_iff. exists (u, d). split; [exact Hu|]. now apply Hti.
      * destruct Hext as (extra & -> & _). apply in_or_app. now left.
    + assert (Hin : In ClearTimer (w_reactions w1)).
      { rewrite Hre. destruct (signal w); try discriminate; exact Hm. }
      destruct (settled (signal w1)); [now right|exact Hin].
Qed.

Lemma run_scheduled event now es w :
  scheduled event now w -> scheduled event now (run' es w).
Proof.
  revert w. induction es as [|e es IH]; intros w H; [exact H|].
  change (scheduled event now (run' es (step' e w))). now apply IH, step_scheduled.
Qed.

Lemma response_timer_fires w d :
  next_timer (w_timers w) = Some (ResponseTimer, d) ->
  match signal w with
  | Pending =>
      w_trace (fire w)
      = (w_trace w
         ++ [Log LogError MSG_TIMEOUT;
             Fetch (w_fetches w)
               (nativeFetch (InfoRequest (request (_event (w_res w)))) (Some empty_init)
                  (w_global w)).1])%list
      /\ signal (fire w) = Following (w_fetches w)
  | _ => w_trace (fire w) = w_trace w /\ signal (fire w) = signal w
  end.
Proof.
  intros Hn. unfold fire. rewrite Hn. unfold response_timeout.
  cbn [w_res set_now disarm set_timers]. unfold Defer.done.
  change (Defer.promise (_deferred (w_res w))) with (signal w).
  destruct (signal w) eqn:Hs; try (split; [reflexivity|exact Hs]).
  split.
  - rewrite forward_trace. cbn [emit w_trace w_fetches w_res w_global set_now disarm
                                  set_timers]. now rewrite <- app_assoc.
  - now rewrite forward_pending.
Qed.

(** C5, as the code has it. Constructing a response builder arms a
    per-response timer of 10 time units. When that timer fires while the
    deferred signal is still unresolved, a message is logged at the error
    level of the logger (not at its warn level) and [forward()] is called
    on the original request with the default [init]; when the signal has
    been resolved by then, the callback does nothing. Once the signal has
    settled, by fulfilment or by rejection, the timer has been cleared. *)
Theorem per_response_timer (routers : list MockerRouter) (event : FetchEvent)
    (g : GlobalContext) (now : Z) (es : list Event) :
  let w0 := MockerResponse_new event g now in
  let w := run' es (on_fetch' routers event g now) in
  w_trace w0 = [RespondWith DeferredPromise; SetTimeout ResponseTimer (10 * time_unit)]
  /\ w_timers w0 = [(ResponseTimer, now + 10 * time_unit)]
  /\ (forall d,
        next_timer (w_timers w) = Some (ResponseTimer, d) ->
        d = now + 10 * time_unit
        /\ match signal w with
           | Pending =>
               exists route,
                 w_trace (fire w)
                 = (w_trace w
                    ++ [Log LogError MSG_TIMEOUT;
                        Fetch (w_fetches w)
                          (mkCall route (InfoRequest (request event)) (Some empty_init))])%list
                 /\ route <> ToInterceptor
                 /\ signal (fire w) = Following (w_fetches w)
           | _ => w_trace (fire w) = w_trace w /\ signal (fire w) = signal w
           end)
  /\ (settled (signal w) = true -> cleared w).
Proof.
  intros w0 w.
  pose proof (run_scheduled event now es _ (on_fetch_scheduled routers event g now))
    as [[Hev Hti] Hm].
  fold w in Hev, Hti, Hm.
  split; [reflexivity|]. split; [reflexivity|]. split.
  - intros d Hn. split.
    + apply (Hti ResponseTimer d).
      clear -Hn. revert Hn. generalize (w_timers w) as ts.
      induction ts as [|[t0 d0] ts IH]; [discriminate|]. cbn [next_timer].
      destruct (next_timer ts) as [[u du]|] eqn:Hnt.
      * cbn [snd]. destruct (Z.ltb du d0).
        -- intros [= -> ->]. right. now apply IH.
        -- intros [= -> ->]. now left.
      * intros [= -> ->]. now left.
    + pose proof (response_timer_fires w d Hn) as Hf.
      destruct (signal w); try exact Hf.
      destruct Hf as [Htr Hsig]. rewrite Hev in Htr.
      pose proof (nativeFetch_spec (InfoRequest (request event)) (Some empty_init)
                    (w_global w)) as (_ & Hi & Hn' & Hr & _).
      destruct (nativeFetch _ _ (w_global w)).1 as [route i n]. cbn in Hi, Hn', Hr.
      subst i n. exists route. now repeat split.
  - intros Hs. destruct (signal w); try discriminate; now destruct Hm as (_ & ? & ?).
Qed.

(** ** The listener's flag and its timer *)

Lemma run_reaction_resolved r w :
  w_resolved (run_reaction r w)
  = match r, signal w with
    | MarkResolved, Fulfilled _ => true
    | _, _ => w_resolved w
    end.
Proof. unfold run_reaction. destruct r, (signal w); reflexivity. Qed.

Lemma run_reactions_resolved rs w :
  w_resolved (foldl (fun w r => run_reaction r w) w rs)
  = if fulfilled (signal w) && existsb is_mark rs then true else w_resolved w.
Proof.
  revert w. induction rs as [|r rs IH]; intros w.
  - cbn. now rewrite andb_false_r.
  - cbn [foldl existsb]. rewrite IH, signal_run_reaction, run_reaction_resolved.
    destruct r, (signal w); cbn [fulfilled andb orb is_mark]; try reflexivity.
    now destruct (existsb is_mark rs).
Qed.

Lemma existsb_is_mark rs : In MarkResolved rs -> existsb is_mark rs = true.
Proof. intros H. apply existsb_exists. now exists MarkResolved. Qed.

Lemma drain_flagged w :
  (fulfilled (signal w) = true -> In MarkResolved (w_reactions w) \/ w_resolved w = true) ->
  (settled (signal w) = false -> In MarkResolved (w_reactions w)) ->
  (In FallbackTimer (map fst (w_timers w)) -> fulfilled (signal w) = false ->
   w_resolved w = false) ->
  flagged (drain w).
Proof.
  intros H1 H2 H3. unfold flagged. rewrite signal_drain. unfold drain.
  destruct (signal w) eqn:Hs; cbn [fulfilled settled] in *.
  - repeat split; auto. discriminate.
  - repeat split; auto. discriminate.
  - split; [|split; [discriminate|discriminate]].
    intros _. cbn [set_reactions w_resolved]. rewrite run_reactions_resolved, Hs.
    cbn [fulfilled andb]. destruct (existsb is_mark (w_reactions w)) eqn:Hb;
      [reflexivity|].
    destruct (H1 eq_refl) as [Hin | Hr]; [|exact Hr].
    apply existsb_is_mark in Hin. congruence.
  - split; [discriminate|]. split; [discriminate|].
    intros Hin _. cbn [set_reactions w_resolved w_timers] in *.
    rewrite run_reactions_resolved, Hs. cbn [fulfilled andb].
    apply H3; [|reflexivity].
    apply in_map_iff in Hin as ([u d] & Hu & Hin). cbn in Hu. subst u.
    apply in_map_iff. exists (FallbackTimer, d). split; [reflexivity|].
    now apply run_reactions_timers in Hin.
Qed.

Lemma fire_resolved w :
  w_resolved (fire w) = w_resolved w
  \/ (w_resolved (fire w) = true /\ ~ In FallbackTimer (map fst (w_timers (fire w)))).
Proof.
  unfold fire. destruct (next_timer _) as [[t d]|]; [|now left]. destruct t.
  - left. unfold response_timeout. destruct (Defer.done _); [reflexivity|].
    now rewrite (same_resolved _ _ (forward_schedule _ _ _)).
  - unfold fallback_timeout. cbn [w_resolved set_now].
    destruct (w_resolved (disarm FallbackTimer w)) eqn:Hr; [now left|].
    right. split; [reflexivity|].
    cbn [issue add_fallback w_timers set_resolved set_now].
    intros Hin. apply in_map_iff in Hin as ([u d'] & Hu & Hin). cbn in Hu. subst u.
    now apply In_disarm in Hin as [_ Hne].
Qed.

Lemma on_fetch_flagged routers event g now : flagged (on_fetch' routers event g now).
Proof.
  unfold on_fetch.
  set (w0 := set_reactions _ (emit (RespondWith DeferredPromiseThen) _)).
  pose proof (some_schedule event routers w0) as [Ht Hr Hres _ _].
  set (w1 := (some _ routers w0).2) in *.
  assert (Hin : In MarkResolved (w_reactions (setTimeout FallbackTimer 2000 w1))).
  { unfold setTimeout. cbn [emit set_timers w_reactions]. rewrite Hr. cbn. auto. }
  apply drain_flagged; auto.
Qed.

Lemma step_flagged e w : flagged w -> flagged (step' e w).
Proof.
  intros (F1 & F2 & F3). unfold step.
  set (w1 := match e with EvHandler c => call' c w | EvTimer => fire w
                        | EvNetReply id r => net_reply id r w end).
  assert (Hre : w_reactions w1 = w_reactions w).
  { subst w1. destruct e; [apply call_schedule|apply fire_reactions|apply net_reply_schedule]. }
  assert (Hti : forall u d, In (u, d) (w_timers w1) -> In (u, d) (w_timers w)).
  { subst w1. destruct e.
    - now rewrite (same_timers _ _ (call_schedule c w)).
    - apply fire_timers.
    - now rewrite (same_timers _ _ (net_reply_schedule id r w)). }
  assert (Hrs : w_resolved w1 = w_resolved w
                \/ (w_resolved w1 = true /\ ~ In FallbackTimer (map fst (w_timers w1)))).
  { subst w1. destruct e.
    - left. apply call_schedule.
    - apply fire_resolved.
    - left. apply net_reply_schedule. }
  assert (Hst : settled (signal w) = true -> signal w1 = signal w).
  { intros Hs. subst w1. destruct e.
    - apply call_settled. intros E. now rewrite E in Hs.
    - apply fire_signal. intros E. now rewrite E in Hs.
    - now apply net_reply_settled. }
  apply drain_flagged.
  - intros Hf. destruct (settled (signal w)) eqn:Hs.
    + right. rewrite (Hst eq_refl) in Hf.
      destruct Hrs as [-> | [-> _]]; auto.
    + left. rewrite Hre. auto.
  - intros Hs. rewrite Hre. apply F2.
    destruct (settled (signal w)) eqn:Hs'; [|reflexivity].
    rewrite (Hst eq_refl) in Hs. congruence.
  - intros Hin Hf. destruct Hrs as [-> | [_ Hno]]; [|contradiction].
    apply F3.
    + apply in_map_iff in Hin as ([u d] & Hu & Hin). apply in_map_iff.
      exists (u, d). split; [exact Hu|]. now apply Hti.
    + destruct (signal w) eqn:Hs; try reflexivity.
      rewrite Hst in Hf by reflexivity. exact Hf.
Qed.

Lemma run_flagged es w : flagged w -> flagged (run' es w).
Proof.
  revert w. induction es as [|e es IH]; intros w H; [exact H|].
  change (flagged (run' es (step' e w))). now apply IH, step_flagged.
Qed.

Lemma next_timer_In ts t d : next_timer ts = Some (t, d) -> In (t, d) ts.
Proof.
  revert t d. induction ts as [|[t0 d0] ts IH]; intros t d; [discriminate|].
  cbn [next_timer]. destruct (next_timer ts) as [[u du]|].
  - cbn [snd]. destruct (Z.ltb du d0); intros [= -> ->]; [right; now apply IH|now left].
  - intros [= -> ->]. now left.
Qed.

Lemma fallback_reply_resolves id r w :
  In id (w_inflight w) -> In id (w_fallback w) -> signal w = Pending ->
  signal (net_reply id (Some r) w) = Fulfilled r.
Proof.
  intros Hin Hfb Hp. unfold net_reply.
  rewrite bool_decide_eq_true_2 by now apply list_elem_of_In.
  set (w1 := set_inflight _ w).
  assert (E1 : signal w1 = Pending) by exact Hp.
  rewrite E1.
  rewrite bool_decide_eq_true_2 by now apply list_elem_of_In.
  now rewrite resolve_pending.
Qed.



(** ** How the builder's methods compose *)

Lemma sendStatus_as_send_finish code w :
  sendStatus' code w
  = send_finish mime_lookup getStatusText "html"
      (upd_res (set_body (JString (_getStatusText getStatusText
                                     (w_res (upd_res (set_statusCode code) (type' "text" w))))))
         (upd_res (set_statusCode code) (type' "text" w))).
Proof. reflexivity. Qed.


Lemma headers_kept (w : World) (c : Call) :
  signal w = Pending ->
  Headers.has "content-type" (headers (w_res w)) = true ->
  keeps_content_type c = true ->
  exists r,
    signal (call' c w) = Fulfilled r /\ resp_headers r = headers (w_res w).
Proof.
  intros Hp Hset Hc. destruct c; try discriminate Hc; cbn [call]; eexists.
  - split.
    + rewrite json_as_send_finish. apply send_finish_pending. exact Hp.
    + cbn [resp_headers upd_res w_res set_body headers]. now rewrite Hset.
  - split.
    + rewrite send_as_send_finish. apply send_finish_pending. exact Hp.
    + cbn [resp_headers upd_res w_res set_body headers]. now rewrite Hset.
  - split.
    + apply end_pending. exact Hp.
    + cbn [finalized resp_headers]. now rewrite Hset.
Qed.


Lemma headers_set_has (name value : string) (h : gmap string string) :
  Headers.norm name = "content-type" ->
  Headers.has "content-type" (Headers.set name value h) = true
  /\ Headers.get "content-type" (Headers.set name value h) = Some value.
Proof.
  intros Hn. unfold Headers.has, Headers.get, Headers.set.
  rewrite Hn, norm_content_type, lookup_insert_eq. split; [|reflexivity].
  apply bool_decide_eq_true. eauto.
Qed.


(** X4. [json()] of a value for which [JSON.stringify] gives [undefined]
    ([undefined] itself, a function, a symbol) is not refused: whatever body
    was set is dropped, the response has no body, and its type is the JSON
    type when none was set. *)
Theorem json_of_nothing (w : World) (body : JsValue) :
  In body [JUndefined; JFunction; JSymbol] ->
  signal w = Pending ->
  exists r,
    signal (json' body w) = Fulfilled r
    /\ resp_body r = JUndefined
    /\ resp_status r = _statusCode (w_res w)
    /\ (Headers.has "content-type" (headers (w_res w)) = false ->
        Headers.get "content-type" (resp_headers r) = Some (mime_lookup "json")).
Proof.
  intros Hbody Hp.
  assert (Hnone : JSON.stringify body = None).
  { destruct Hbody as [<- | [<- | [<- | []]]]; reflexivity. }
  eexists. split.
  { rewrite json_as_send_finish. apply send_finish_pending. exact Hp. }
  rewrite Hnone.
  cbn [resp_body resp_status resp_headers upd_res w_res set_body _body _statusCode headers].
  split; [now destruct (discards_body _)|]. split; [reflexivity|].
  intros Hunset. rewrite Hunset. unfold Headers.get, Headers.set.
  now rewrite lookup_insert_eq.
Qed.

Lemma parse_number_text (n : Z) : JSON.parse (JSON.number_to_string n) = Some (JNumber n).
Proof.
  destruct (parse_stringify (JNumber n) eq_refl) as (text & Htext & Hparse).
  cbn in Htext. injection Htext as <-. exact Hparse.
Qed.


(** X6. [forward] to a URL takes from [init] only a truthy body, a truthy
    method and the headers: an empty body or method does not override the
    original request's, and a mode or credentials given in [init] are
    replaced by cors and include. *)
Theorem forward_takes_effective_init (w : World) (url : string) (init : RequestInit) :
  forward (InfoUrl url) init w = forward (InfoUrl url) (effective_init init) w
  /\ forwarded_init w (InfoUrl url) init
     = mkInit (match init_body (effective_init init) with
               | Some b => Some b
               | None => defaultBody (request (_event (w_res w)))
               end)
              (Some (default (req_method (request (_event (w_res w))))
                       (init_method (effective_init init))))
              (Some (default (req_headers (request (_event (w_res w)))) (init_headers init)))
              (Some "cors") (Some "include").
Proof.
  assert (H : forall rq,
             forward_options rq init
             = mkInit (match init_body (effective_init init) with
                       | Some b => Some b
                       | None => defaultBody rq
                       end)
                      (Some (default (req_method rq) (init_method (effective_init init))))
                      (Some (default (req_headers rq) (init_headers init)))
                      (Some "cors") (Some "include")).
  { intros rq. unfold forward_options, effective_init, or_body, or_method.
    cbn [init_body init_method init_headers].
    destruct (init_body init) as [b|]; [destruct (body_truthy b)|];
      (destruct (init_method init) as [m|]; [destruct (Str.truthy m)|]); reflexivity. }
  assert (H' : forall rq, forward_options rq (effective_init init) = forward_options rq init).
  { intros rq. unfold forward_options, effective_init, or_body, or_method.
    cbn [init_body init_method init_headers].
    destruct (init_body init) as [b|]; [destruct (body_truthy b) eqn:Hb|];
      (destruct (init_method init) as [m|]; [destruct (Str.truthy m) eqn:Hm|]);
      rewrite ?Hb, ?Hm; reflexivity. }
  split.
  - unfold forward. now rewrite H'.
  - cbn [forwarded_init]. apply H.
Qed.

(** ** What a whole run keeps *)

Lemma run_app (es es' : list Event) (w : World) :
  run' (es ++ es') w = run' es' (run' es w).
Proof. unfold run. apply foldl_app. Qed.

Lemma end_global w : w_global (end_' w) = w_global w.
Proof. unfold end_. destruct (_ && _); destruct (negb _); reflexivity. Qed.

Lemma call_global c w : w_global (call' c w) = w_global w.
Proof.
  destruct (finalizes c) eqn:Hf.
  { destruct (finalizes_via_end c w Hf) as (w' & -> & Hsame & _).
    rewrite end_global. now apply same_request_global. }
  destruct c; try discriminate; cbn [call]; try reflexivity.
  apply forward_global.
Qed.

Lemma calls_global cs w : w_global (calls' cs w) = w_global w.
Proof.
  revert w. induction cs as [|c cs IH]; intros w; [reflexivity|].
  change (w_global (calls' cs (call' c w)) = w_global w).
  now rewrite IH, call_global.
Qed.

Lemma run_reactions_global rs w :
  w_global (foldl (fun w r => run_reaction r w) w rs) = w_global w.
Proof.
  revert w. induction rs as [|r rs IH]; intros w; [reflexivity|].
  cbn [foldl]. rewrite IH. unfold run_reaction. destruct r, (signal w); reflexivity.
Qed.

Lemma drain_global w : w_global (drain w) = w_global w.
Proof.
  unfold drain. destruct (signal w); try reflexivity;
    cbn [set_reactions w_global]; apply run_reactions_global.
Qed.

Lemma fire_global w : w_global (fire w) = w_global w.
Proof.
  unfold fire. destruct (next_timer _) as [[t d]|]; [|reflexivity]. destruct t.
  - unfold response_timeout. destruct (Defer.done _); [reflexivity|].
    now rewrite forward_global.
  - unfold fallback_timeout. cbn [w_resolved set_now disarm set_timers].
    now destruct (w_resolved w).
Qed.

Lemma net_reply_global id res w : w_global (net_reply id res w) = w_global w.
Proof.
  unfold net_reply. destruct (bool_decide _); [|reflexivity].
  set (w1 := set_inflight _ w).
  set (w2 := match signal w1 with Following _ => _ | _ => w1 end).
  assert (H2 : w_global w2 = w_global w).
  { subst w2. destruct (signal w1); try reflexivity. now destruct (Nat.eqb _ _). }
  destruct (bool_decide _); [|exact H2]. destruct res; exact H2.
Qed.

Lemma step_global e w : w_global (step' e w) = w_global w.
Proof.
  unfold step. rewrite drain_global.
  destruct e; [apply call_global|apply fire_global|apply net_reply_global].
Qed.

Lemma some_global event routers w :
  w_global (some (match_router mime_lookup getStatusText event) routers w).2 = w_global w.
Proof.
  revert w. induction routers as [|rt routers IH]; intros w; [reflexivity|].
  cbn [some]. unfold match_router at 1. destruct (_match rt event) as [matched cs].
  assert (H1 : w_global (calls' cs (emit (Match (rid rt)) w)) = w_global w)
    by now rewrite calls_global.
  destruct matched; [exact H1|]. now rewrite IH.
Qed.

(** X7. Whatever the handlers, the timers and the network do for a request,
    the global object is left as it was found: the swap of
    [XMLHttpRequest] that [nativeFetch] makes around a polyfilled [fetch] is
    always undone. *)
Theorem global_object_restored (routers : list MockerRouter) (event : FetchEvent)
    (g : GlobalContext) (now : Z) (es : list Event) :
  w_global (run' es (on_fetch' routers event g now)) = g.
Proof.
  assert (H0 : w_global (on_fetch' routers event g now) = g).
  { unfold on_fetch. rewrite drain_global. unfold setTimeout.
    cbn [emit set_timers w_global]. now rewrite some_global. }
  revert H0. generalize (on_fetch' routers event g now) as w.
  induction es as [|e es IH]; intros w Hw; [exact Hw|].
  change (w_global (run' es (step' e w)) = g). apply IH. now rewrite step_global.
Qed.

Lemma reply_failure_rejects i w :
  signal w = Following i -> In i (w_inflight w) ->
  signal (net_reply i None w) = Rejected.
Proof.
  intros Hs Hin. unfold net_reply.
  rewrite bool_decide_eq_true_2 by now apply list_elem_of_In.
  set (w1 := set_inflight _ w).
  assert (E1 : signal w1 = Following i) by exact Hs.
  rewrite E1, Nat.eqb_refl. now destruct (bool_decide _).
Qed.

Lemma run_settled es w : settled (signal w) = true -> signal (run' es w) = signal w.
Proof.
  revert w. induction es as [|e es IH]; intros w Hs; [reflexivity|].
  change (signal (run' es (step' e w)) = signal w).
  rewrite IH; rewrite step_settled; auto.
Qed.

(** X8. A forwarded request that fails is the end of the matter: the deferred
    signal is rejected, and no later call on the builder, timer or network
    answer delivers a response for the event. *)
Theorem failed_forward_is_final (w : World) (i : nat) (es : list Event) :
  signal w = Following i ->
  In i (w_inflight w) ->
  signal (run' es (step' (EvNetReply i None) w)) = Rejected.
Proof.
  intros Hs Hin.
  assert (H1 : signal (step' (EvNetReply i None) w) = Rejected).
  { unfold step. rewrite signal_drain. now apply reply_failure_rejects. }
  rewrite run_settled; rewrite H1; reflexivity.
Qed.

(** ** Routers after the first match *)

Lemma some_until_match event routers w :
  (some (match_router mime_lookup getStatusText event) routers w).2
  = (some (match_router mime_lookup getStatusText event) (until_match event routers) w).2.
Proof.
  revert w. induction routers as [|rt routers IH]; intros w; [reflexivity|].
  cbn [some until_match].
  pose proof (match_router_result event rt w) as Hres.
  destruct (match_router mime_lookup getStatusText event rt w) as [matched w1].
  cbn [fst] in Hres. rewrite <- Hres.
  destruct matched; [reflexivity|]. apply IH.
Qed.

(** X9. The routers registered after the first one whose [_match] returns
    true count for nothing: the dispatch leaves the very world it would
    leave if they were not in the registry. *)
Theorem routers_after_match_are_idle (routers : list MockerRouter) (event : FetchEvent)
    (g : GlobalContext) (now : Z) :
  on_fetch' routers event g now = on_fetch' (until_match event routers) event g now.
Proof. unfold on_fetch. now rewrite some_until_match. Qed.

(** ** The order of the two timers *)

Lemma next_timer_none ts : next_timer ts = None -> ts = [].
Proof.
  destruct ts as [|t ts]; [reflexivity|]. cbn [next_timer].
  destruct (next_timer ts) as [u|]; [|discriminate]. now destruct (Z.ltb _ _).
Qed.

Lemma next_timer_min ts t d :
  next_timer ts = Some (t, d) -> forall u du, In (u, du) ts -> d <= du.
Proof.
  revert t d. induction ts as [|[t0 d0] ts IH]; intros t d; [discriminate|].
  cbn [next_timer]. destruct (next_timer ts) as [[v dv]|] eqn:Hn.
  - cbn [snd]. destruct (Z.ltb dv d0) eqn:Hlt.
    + intros [= <- <-] u du [[= <- <-] | Hin].
      * apply Z.ltb_lt in Hlt. lia.
      * now apply (IH v dv eq_refl u du).
    + intros [= <- <-] u du [[= <- <-] | Hin]; [lia|].
      apply Z.ltb_ge in Hlt. pose proof (IH v dv eq_refl u du Hin). lia.
  - intros [= <- <-] u du [[= <- <-] | Hin]; [lia|].
    apply next_timer_none in Hn. subst ts. destruct Hin.
Qed.

Lemma In_disarm_other t u d w :
  In (u, d) (w_timers w) -> u <> t -> In (u, d) (w_timers (disarm t w)).
Proof.
  intros Hin Hne. unfold disarm. cbn [set_timers w_timers].
  rewrite <- list_elem_of_In, list_elem_of_filter, list_elem_of_In. split; [|exact Hin].
  cbn. destruct u, t; cbn; try congruence; exact I.
Qed.

Lemma timer_in_map t w :
  In t (map fst (w_timers w)) <-> exists d, In (t, d) (w_timers w).
Proof.
  rewrite in_map_iff. split.
  - intros ([u d] & Hu & Hin). cbn in Hu. subst u. eauto.
  - intros (d & Hin). now exists (t, d).
Qed.

Lemma run_reaction_keeps_fallback r w d :
  In (FallbackTimer, d) (w_timers w) -> In (FallbackTimer, d) (w_timers (run_reaction r w)).
Proof.
  intros Hin. unfold run_reaction. destruct r, (signal w); auto;
    cbn [clearTimeout emit w_timers]; now apply In_disarm_other.
Qed.

Lemma drain_keeps_fallback w d :
  In (FallbackTimer, d) (w_timers w) -> In (FallbackTimer, d) (w_timers (drain w)).
Proof.
  assert (H : forall rs w0, In (FallbackTimer, d) (w_timers w0) ->
                In (FallbackTimer, d)
                   (w_timers (foldl (fun w r => run_reaction r w) w0 rs))).
  { induction rs as [|r rs IH]; intros w0 Hin; [exact Hin|].
    cbn [foldl]. now apply IH, run_reaction_keeps_fallback. }
  intros Hin. unfold drain. destruct (signal w); auto;
    cbn [set_reactions w_timers]; now apply H.
Qed.

Lemma drain_resolved w :
  w_resolved (drain w)
  = if fulfilled (signal w) && existsb is_mark (w_reactions w) then true else w_resolved w.
Proof.
  unfold drain. destruct (signal w) eqn:Hs; cbn [fulfilled andb]; try reflexivity.
  - cbn [set_reactions w_resolved]. now rewrite run_reactions_resolved, Hs.
  - cbn [set_reactions w_resolved]. now rewrite run_reactions_resolved, Hs.
Qed.

Lemma extends_In e w' w : extends_quietly w' w -> In e (w_trace w) -> In e (w_trace w').
Proof. intros (extra & -> & _) Hin. apply in_or_app. now left. Qed.

Lemma drain_fallback_state event w : fallback_state event w -> fallback_state event (drain w).
Proof.
  intros [H1 H2]. split.
  - intros Hno. rewrite drain_resolved.
    destruct (_ && _); [reflexivity|]. apply H1.
    intros Hin. apply Hno. apply timer_in_map in Hin as [d Hin].
    apply timer_in_map. exists d. now apply drain_keeps_fallback.
  - rewrite drain_resolved, signal_drain.
    destruct (fulfilled (signal w)) eqn:Hf; [now left|]. cbn [andb].
    intros Hr. destruct (H2 Hr) as [Hc | (id & route & Hin)]; [congruence|].
    right. exists id, route. now apply (extends_In _ _ _ (drain_extends w)).
Qed.

Lemma fire_fallback_state event w :
  _event (w_res w) = event -> fallback_state event w -> fallback_state event (fire w).
Proof.
  intros Hev [H1 H2]. unfold fire.
  destruct (next_timer (w_timers w)) as [[t d]|] eqn:Hn; [|now split].
  destruct t.
  - (* the per-response timer *)
    assert (Hkeep : forall w', w_timers w' = w_timers (disarm ResponseTimer w) ->
                      w_resolved w' = w_resolved w ->
                      ~ In FallbackTimer (map fst (w_timers w')) -> w_resolved w' = true).
    { intros w' Ht Hr Hno. rewrite Hr. apply H1. intros Hin. apply Hno.
      apply timer_in_map in Hin as [d' Hin]. apply timer_in_map. exists d'.
      rewrite Ht. now apply In_disarm_other. }
    unfold response_timeout. cbn [w_res set_now disarm set_timers].
    destruct (Defer.done _) eqn:Hd.
    + split; [now apply Hkeep|]. exact H2.
    + apply done_signal in Hd. split.
      * apply Hkeep.
        -- now rewrite (same_timers _ _ (forward_schedule _ _ _)).
        -- now rewrite (same_resolved _ _ (forward_schedule _ _ _)).
      * rewrite (same_resolved _ _ (forward_schedule _ _ _)). cbn [emit w_resolved].
        intros Hr. destruct (H2 Hr) as [Hf | (id & route & Hin)].
        -- change (signal (set_now (Z.max (w_now w) d) (disarm ResponseTimer w)))
             with (signal w) in Hd. rewrite Hd in Hf. discriminate.
        -- right. exists id, route.
           apply (extends_In _ _ _ (forward_extends _ _ _)).
           cbn [emit w_trace]. apply in_or_app. now left.
  - (* the listener's timer *)
    unfold fallback_timeout. cbn [w_resolved set_now disarm set_timers].
    destruct (w_resolved w) eqn:Hr.
    + split; [intros _; exact Hr|]. intros _. exact (H2 eq_refl).
    + cbn [issue add_fallback set_resolved w_resolved w_trace w_res w_global signal].
      split; [reflexivity|]. intros _. right.
      exists (w_fetches w), (call_fetch (g_fetch (w_global w)) (w_global w)).
      rewrite <- Hev. apply in_or_app. right. now left.
Qed.

Lemma fulfilled_step_op e w :
  fulfilled (signal w) = true ->
  fulfilled (signal (match e with
                     | EvHandler c => call' c w
                     | EvTimer => fire w
                     | EvNetReply id r => net_reply id r w
                     end)) = true.
Proof.
  intros Hf. destruct (signal w) eqn:Hs; try discriminate. destruct e.
  - rewrite call_settled; rewrite Hs; [reflexivity|discriminate].
  - now rewrite (fire_fulfilled w r Hs).
  - now rewrite (net_reply_fulfilled id r0 w r Hs).
Qed.

Lemma step_fallback_state event e w :
  _event (w_res w) = event -> fallback_state event w -> fallback_state event (step' e w).
Proof.
  intros Hev Hinv. unfold step. apply drain_fallback_state. destruct e as [c| |id res].
  - destruct Hinv as [H1 H2]. pose proof (call_schedule c w) as [Ht _ Hr _ _]. split.
    + rewrite Ht, Hr. exact H1.
    + rewrite Hr. intros Hres. destruct (H2 Hres) as [Hf | (i & route & Hin)].
      * left. exact (fulfilled_step_op (EvHandler c) w Hf).
      * right. exists i, route. now apply (extends_In _ _ _ (call_extends c w)).
  - now apply fire_fallback_state.
  - destruct Hinv as [H1 H2]. pose proof (net_reply_schedule id res w) as [Ht _ Hr _ _].
    split.
    + rewrite Ht, Hr. exact H1.
    + rewrite Hr. intros Hres. destruct (H2 Hres) as [Hf | (i & route & Hin)].
      * left. exact (fulfilled_step_op (EvNetReply id res) w Hf).
      * right. exists i, route. now apply (extends_In _ _ _ (net_reply_extends id res w)).
Qed.

Lemma on_fetch_fallback_state routers event g now :
  fallback_state event (on_fetch' routers event g now).
Proof.
  unfold on_fetch. apply drain_fallback_state.
  set (w0 := set_reactions _ (emit (RespondWith DeferredPromiseThen) _)).
  pose proof (some_schedule event routers w0) as [Ht _ Hres _ _].
  set (w1 := (some _ routers w0).2) in *.
  split.
  - intros Hno. exfalso. apply Hno. unfold setTimeout. cbn [emit set_timers w_timers].
    rewrite map_app. apply in_or_app. right. now left.
  - unfold setTimeout. cbn [emit set_timers w_resolved]. rewrite Hres. discriminate.
Qed.

Lemma run_event es w : _event (w_res (run' es w)) = _event (w_res w).
Proof.
  revert w. induction es as [|e es IH]; intros w; [reflexivity|].
  change (_event (w_res (run' es (step' e w))) = _event (w_res w)).
  rewrite IH. unfold step. rewrite w_res_drain.
  destruct e; [apply call_schedule|apply fire_event|apply net_reply_schedule].
Qed.

Lemma step_event e w : _event (w_res (step' e w)) = _event (w_res w).
Proof. exact (run_event [e] w). Qed.

Lemma run_fallback_state event es w :
  _event (w_res w) = event -> fallback_state event w -> fallback_state event (run' es w).
Proof.
  revert w. induction es as [|e es IH]; intros w Hev H; [exact H|].
  change (fallback_state event (run' es (step' e w))). apply IH.
  - now rewrite step_event.
  - now apply step_fallback_state.
Qed.


Lemma drain_trace_idle w : w_reactions w = [] -> w_trace (drain w) = w_trace w.
Proof. intros Hr. unfold drain. destruct (signal w); rewrite ?Hr; reflexivity. Qed.

Lemma timer_silent_once event now w :
  scheduled event now w -> flagged w -> fulfilled (signal w) = true ->
  w_trace (step' EvTimer w) = w_trace w.
Proof.
  intros [_ Hm] (F1 & _ & _) Hf.
  destruct (signal w) eqn:Hs; try discriminate.
  destruct Hm as (Hre & Hno & _).
  unfold step. rewrite drain_trace_idle by now rewrite fire_reactions.
  unfold fire. destruct (next_timer (w_timers w)) as [[t d]|] eqn:Hn; [|reflexivity].
  destruct t.
  - exfalso. apply Hno. apply timer_in_map. exists d. now apply next_timer_In.
  - unfold fallback_timeout. cbn [w_resolved set_now disarm set_timers].
    now rewrite (F1 eq_refl).
Qed.

(** X11. Once a response has been delivered, the timers of the request are
    spent: however often they fire, they neither log nor fetch, and the
    response stays the one delivered. *)
Theorem timers_silent_after_response (routers : list MockerRouter) (event : FetchEvent)
    (g : GlobalContext) (now : Z) (es : list Event) (n : nat) :
  let w := run' es (on_fetch' routers event g now) in
  fulfilled (signal w) = true ->
  w_trace (run' (repeat EvTimer n) w) = w_trace w
  /\ signal (run' (repeat EvTimer n) w) = signal w.
Proof.
  intros w Hf.
  pose proof (run_scheduled event now es _ (on_fetch_scheduled routers event g now)) as Hs.
  pose proof (run_flagged es _ (on_fetch_flagged routers event g now)) as Hfl.
  fold w in Hs, Hfl. clearbody w. revert w Hf Hs Hfl.
  induction n as [|n IH]; intros w Hf Hs Hfl; [now split|].
  cbn [repeat]. change (run' (EvTimer :: repeat EvTimer n) w)
    with (run' (repeat EvTimer n) (step' EvTimer w)).
  assert (Hsig : signal (step' EvTimer w) = signal w).
  { apply step_settled. now destruct (signal w). }
  destruct (IH (step' EvTimer w)) as [Ht Hg].
  - now rewrite Hsig.
  - now apply step_scheduled.
  - now apply step_flagged.
  - split; [|congruence]. rewrite Ht. now apply (timer_silent_once event now).
Qed.

(** ** A response is never left hanging *)

Lemma same_request_inflight w' w : same_request w' w -> w_inflight w' = w_inflight w.
Proof. intros H. exact (f_equal w_inflight (same_outside _ _ H (w_res w))). Qed.

Lemma end_inflight w : w_inflight (end_' w) = w_inflight w.
Proof. unfold end_. destruct (_ && _); destruct (negb _); reflexivity. Qed.

Lemma forward_inflight input init w :
  w_inflight (forward input init w) = (w_inflight w ++ [w_fetches w])%list.
Proof.
  unfold forward, resolve_with_nativeFetch.
  destruct input; destruct (nativeFetch _ _ _); reflexivity.
Qed.

Lemma call_inflight_incl c w j :
  In j (w_inflight w) -> In j (w_inflight (call' c w)).
Proof.
  intros Hin. destruct (finalizes c) eqn:Hf.
  { destruct (finalizes_via_end c w Hf) as (w' & -> & Hsame & _).
    now rewrite end_inflight, (same_request_inflight _ _ Hsame). }
  destruct c; try discriminate Hf; cbn [call]; try exact Hin.
  rewrite forward_inflight. apply in_or_app. now left.
Qed.

Lemma call_following_fresh c w i :
  signal w = Pending -> signal (call' c w) = Following i ->
  In i (w_inflight (call' c w)).
Proof.
  intros Hp Hs. destruct (finalizes c) eqn:Hf.
  { destruct (finalizes_via_end c w Hf) as (w' & E & Hsame & _).
    rewrite E, end_pending in Hs; [discriminate|].
    now rewrite (same_signal _ _ Hsame). }
  destruct c; try discriminate Hf; cbn [call] in *;
    try (exfalso; assert (H : signal w = Following i) by exact Hs; congruence).
  rewrite forward_pending in Hs by exact Hp. injection Hs as <-.
  rewrite forward_inflight. apply in_or_app. right. now left.
Qed.

Lemma call_alive c w : alive w -> alive (call' c w).
Proof.
  intros [Hp Hf].
  pose proof (call_schedule c w) as [Ht _ _ _ _].
  destruct (signal w) as [|j|r|] eqn:Hs.
  - split.
    + intros _. rewrite Ht. now apply Hp.
    + intros i Hi. now apply call_following_fresh.
  - assert (E : signal (call' c w) = Following j) by (rewrite call_settled; congruence).
    split; [congruence|]. intros i Hi. apply call_inflight_incl, Hf. congruence.
  - assert (E : signal (call' c w) = Fulfilled r) by (rewrite call_settled; congruence).
    split; intros; congruence.
  - assert (E : signal (call' c w) = Rejected) by (rewrite call_settled; congruence).
    split; intros; congruence.
Qed.

Lemma calls_alive cs w : alive w -> alive (calls' cs w).
Proof.
  revert w. induction cs as [|c cs IH]; intros w H; [exact H|].
  change (alive (calls' cs (call' c w))). now apply IH, call_alive.
Qed.

Lemma drain_alive w : alive w -> alive (drain w).
Proof.
  intros H. destruct (signal w) eqn:E.
  1,2: unfold drain; rewrite E; exact H.
  all: split; [intros H1|intros i H1]; rewrite signal_drain, E in H1; discriminate.
Qed.

Lemma fire_alive w : alive w -> alive (fire w).
Proof.
  intros [Hp Hf]. unfold fire.
  destruct (next_timer (w_timers w)) as [[t d]|] eqn:Hn; [|now split].
  set (w1 := set_now _ (disarm t w)).
  assert (S1 : signal w1 = signal w) by reflexivity.
  assert (I1 : w_inflight w1 = w_inflight w) by reflexivity.
  destruct t.
  - unfold response_timeout. destruct (Defer.done _) eqn:Hd.
    + assert (Hnp : signal w <> Pending).
      { intros Hq. apply done_signal in Hq.
        change (Defer.done (_deferred (w_res w1)) = false) in Hq. congruence. }
      split; [rewrite S1; congruence|]. intros i Hi. rewrite I1. apply Hf. now rewrite <- S1.
    + set (w2 := emit _ w1).
      assert (P2 : signal w2 = Pending) by now apply done_signal.
      split; intros; rewrite forward_pending in * by exact P2; [discriminate|].
      match goal with H : Following _ = Following _ |- _ => injection H as <- end.
      rewrite forward_inflight. apply in_or_app. right. now left.
  - assert (Hkeep : signal w = Pending -> In ResponseTimer (map fst (w_timers w1))).
    { intros Hq. apply Hp in Hq. apply timer_in_map in Hq as [d' Hq].
      apply timer_in_map. exists d'.
      change (w_timers w1) with (w_timers (disarm FallbackTimer w)).
      now apply In_disarm_other. }
    unfold fallback_timeout. destruct (w_resolved w1).
    + split; [rewrite S1; exact Hkeep|]. intros i Hi. rewrite I1. apply Hf. now rewrite <- S1.
    + cbn [issue]. split.
      * intros Hq. apply Hkeep. exact Hq.
      * intros i Hi. cbn [add_fallback w_inflight set_resolved].
        apply in_or_app. left. rewrite I1. apply Hf. exact Hi.
Qed.

Lemma resolve_value_alive r w : alive w -> alive (resolve (WithValue r) w).
Proof.
  intros H. destruct (signal w) eqn:E.
  - split; [intros H1|intros i H1]; rewrite resolve_pending in H1 by exact E; discriminate.
  - rewrite resolve_settled by congruence. exact H.
  - rewrite resolve_settled by congruence. exact H.
  - rewrite resolve_settled by congruence. exact H.
Qed.

Lemma net_reply_alive id res w : alive w -> alive (net_reply id res w).
Proof.
  intros [Hp Hf]. unfold net_reply.
  destruct (bool_decide _); [|now split].
  set (w1 := set_inflight _ w).
  set (w2 := match signal w1 with Following _ => _ | _ => w1 end).
  assert (H2 : alive w2).
  { assert (A1 : forall i, signal w = Following i -> i <> id -> In i (w_inflight w1)).
    { intros i Hi Hne. subst w1. cbn [set_inflight w_inflight].
      rewrite <- list_elem_of_In, list_elem_of_filter, list_elem_of_In.
      split; [|now apply Hf]. apply Is_true_true, negb_true_iff, Nat.eqb_neq. exact Hne. }
    subst w2. change (signal w1) with (signal w).
    destruct (signal w) as [|j|r|] eqn:E.
    - split; [intros _; now apply Hp|]. intros i Hi.
      change (signal w = Following i) in Hi. congruence.
    - destruct (Nat.eqb j id) eqn:Heq.
      + destruct res; split; intros; discriminate.
      + apply Nat.eqb_neq in Heq. split.
        * intros Hq. change (signal w = Pending) in Hq. congruence.
        * intros i Hi. change (signal w = Following i) in Hi.
          apply A1; congruence.
    - split; [intros Hq|intros i Hq]; change (signal w1) with (signal w) in Hq; congruence.
    - split; [intros Hq|intros i Hq]; change (signal w1) with (signal w) in Hq; congruence. }
  destruct (bool_decide _); [|exact H2].
  destruct res; [|exact H2]. now apply resolve_value_alive.
Qed.

Lemma step_alive e w : alive w -> alive (step' e w).
Proof.
  intros H. unfold step. apply drain_alive.
  destruct e; [now apply call_alive|now apply fire_alive|now apply net_reply_alive].
Qed.

Lemma run_alive es w : alive w -> alive (run' es w).
Proof.
  revert w. induction es as [|e es IH]; intros w H; [exact H|].
  change (alive (run' es (step' e w))). now apply IH, step_alive.
Qed.

Lemma some_alive event routers w :
  alive w -> alive (some (match_router mime_lookup getStatusText event) routers w).2.
Proof.
  revert w. induction routers as [|rt routers IH]; intros w H; [exact H|].
  cbn [some]. unfold match_router at 1. destruct (_match rt event) as [matched cs].
  assert (H1 : alive (calls' cs (emit (Match (rid rt)) w))) by now apply calls_alive.
  destruct matched; [exact H1|]. now apply IH.
Qed.

Lemma on_fetch_alive routers event g now : alive (on_fetch' routers event g now).
Proof.
  unfold on_fetch. apply drain_alive.
  set (w0 := set_reactions _ (emit (RespondWith DeferredPromiseThen) _)).
  assert (H0 : alive w0).
  { split; [intros _; cbn; now left|]. intros i Hi. discriminate. }
  destruct (some_alive event routers w0 H0) as [Hp Hf].
  split.
  - intros Hq. unfold setTimeout. cbn [emit set_timers w_timers].
    rewrite map_app. apply in_or_app. left. now apply Hp.
  - intros i Hi. now apply Hf.
Qed.

(** X12. While the deferred signal is pending the per-response timer is armed,
    and while it follows a forwarded request that request is still awaiting
    its answer: whatever the handlers, the timers and the network have done,
    something that can settle the response is still to come. *)
Theorem never_left_hanging (routers : list MockerRouter) (event : FetchEvent)
    (g : GlobalContext) (now : Z) (es : list Event) :
  let w := run' es (on_fetch' routers event g now) in
  (signal w = Pending -> In ResponseTimer (map fst (w_timers w)))
  /\ (forall i, signal w = Following i -> In i (w_inflight w)).
Proof. intros w. apply run_alive, on_fetch_alive. Qed.

Lemma reply_success_fulfils i r w :
  signal w = Following i -> In i (w_inflight w) ->
  signal (step' (EvNetReply i (Some r)) w) = Fulfilled r.
Proof.
  intros Hs Hin. unfold step. rewrite signal_drain. unfold net_reply.
  rewrite bool_decide_eq_true_2 by now apply list_elem_of_In.
  set (w1 := set_inflight _ w).
  assert (E1 : signal w1 = Following i) by exact Hs.
  rewrite E1, Nat.eqb_refl. destruct (bool_decide _); [|reflexivity].
  now rewrite signal_resolve_settled.
Qed.

Lemma timer_fires_pending w :
  signal w = Pending -> In ResponseTimer (map fst (w_timers w)) ->
  exists t d, next_timer (w_timers w) = Some (t, d)
    /\ match t with
       | ResponseTimer => exists j, signal (step' EvTimer w) = Following j
       | FallbackTimer =>
           signal (step' EvTimer w) = Pending
           /\ ~ In FallbackTimer (map fst (w_timers (step' EvTimer w)))
       end.
Proof.
  intros Hp Hin.
  destruct (next_timer (w_timers w)) as [[t d]|] eqn:Hn.
  2: { apply next_timer_none in Hn. rewrite Hn in Hin. destruct Hin. }
  exists t, d. split; [reflexivity|].
  assert (Hd : Defer.done (_deferred (w_res w)) = false) by now apply done_signal.
  destruct t.
  - exists (w_fetches w). unfold step. rewrite signal_drain. unfold fire. rewrite Hn.
    unfold response_timeout. cbn [set_now disarm set_timers w_res]. rewrite Hd.
    now rewrite forward_pending.
  - assert (Hs : signal (fire w) = Pending).
    { unfold fire. rewrite Hn. unfold fallback_timeout.
      cbn [set_now disarm set_timers w_resolved]. now destruct (w_resolved w). }
    assert (Hdr : drain (fire w) = fire w) by (unfold drain; now rewrite Hs).
    unfold step. rewrite Hdr. split; [exact Hs|].
    intros Hfb. apply timer_in_map in Hfb as [d' Hfb].
    unfold fire in Hfb. rewrite Hn in Hfb. unfold fallback_timeout in Hfb.
    cbn [set_now disarm set_timers w_resolved] in Hfb.
    assert (Hfb' : In (FallbackTimer, d') (w_timers (disarm FallbackTimer w))).
    { destruct (w_resolved w); exact Hfb. }
    apply In_disarm in Hfb' as [_ Hne]. now apply Hne.
Qed.

(** X13. Unless a forwarded request has failed, a response can still be
    delivered, and without any help from a handler: at most two firings of
    the timers and one successful network answer fulfil the deferred
    signal. *)
Theorem response_can_always_complete (routers : list MockerRouter) (event : FetchEvent)
    (g : GlobalContext) (now : Z) (es : list Event) :
  let w := run' es (on_fetch' routers event g now) in
  signal w <> Rejected ->
  exists es', forallb helpful es' = true
    /\ (length es' <= 3)%nat
    /\ fulfilled (signal (run' es' w)) = true.
Proof.
  intros w Hnr.
  assert (Ha : alive w) by apply run_alive, on_fetch_alive.
  clearbody w.
  pose (r := mkResponse JUndefined ∅ 200 "OK").
  assert (Hfollow : forall w1 j, alive w1 -> signal w1 = Following j ->
            fulfilled (signal (step' (EvNetReply j (Some r)) w1)) = true).
  { intros w1 j [_ Hf1] Hj. rewrite reply_success_fulfils; auto. }
  destruct (signal w) as [|j|r0|] eqn:Hs; [| | |congruence].
  - destruct (timer_fires_pending w Hs (proj1 Ha Hs)) as (t & d & Hn & Ht).
    pose proof (step_alive EvTimer w Ha) as Ha1.
    destruct t.
    + destruct Ht as [j Hj].
      exists [EvTimer; EvNetReply j (Some r)]. split; [reflexivity|]. split; [cbn; lia|].
      now apply Hfollow.
    + destruct Ht as [Hp1 Hno].
      destruct (timer_fires_pending _ Hp1 (proj1 Ha1 Hp1)) as (t & d' & Hn' & Ht').
      destruct t.
      * destruct Ht' as [j Hj].
        exists [EvTimer; EvTimer; EvNetReply j (Some r)].
        split; [reflexivity|]. split; [cbn; lia|].
        apply Hfollow; [now apply step_alive|exact Hj].
      * exfalso. apply Hno. apply timer_in_map. exists d'. now apply next_timer_In.
  - exists [EvNetReply j (Some r)]. split; [reflexivity|]. split; [cbn; lia|].
    now apply Hfollow.
  - exists []. split; [reflexivity|]. split; [cbn; lia|]. cbn. now rewrite Hs.
Qed.

(** ** The handshake *)

(** X14. Whatever message arrives, the listener posts at most one reply, and
    posts it on the first port of the message. A [PONG] comes with no other
    effect: answering a [PING] never claims a page. An [ESTABLISHED] is
    posted only when the claim has been made and has succeeded, and after
    it. *)
Theorem handshake_reply (claimed : bool) (event : Handshake.MessageEvent)
    (port : nat) (reply : JsValue) :
  In (Handshake.PostMessage port reply) (Handshake.on_message claimed event) ->
  (exists others, Handshake.ports event = Some (port :: others))
  /\ js_truthy (Handshake.data event) = true
  /\ ((strict_equals (action_of (Handshake.data event)) ACTION.PING = true
       /\ reply = Handshake.message ACTION.PONG
       /\ Handshake.on_message claimed event = [Handshake.PostMessage port reply])
      \/ (strict_equals (action_of (Handshake.data event)) ACTION.REQUEST_CLAIM = true
          /\ reply = Handshake.message ACTION.ESTABLISHED
          /\ claimed = true
          /\ Handshake.on_message claimed event
             = [Handshake.ClaimClients; Handshake.PostMessage port reply])).
Proof.
  unfold Handshake.on_message.
  destruct (js_truthy (Handshake.data event)) eqn:Ht; cbn [negb]; [|intros []].
  destruct (Handshake.ports event) as [[|p others]|]; try (intros []).
  destruct (strict_equals _ ACTION.PING) eqn:Hping.
  - intros [[= <- <-] | []]. split; [eauto|]. split; [reflexivity|]. left. auto.
  - destruct (strict_equals _ ACTION.REQUEST_CLAIM) eqn:Hclaim; [|intros []].
    destruct claimed.
    + intros [[=] | [[= <- <-] | []]]. split; [eauto|]. split; [reflexivity|].
      right. auto.
    + intros [[=] | []].
Qed.

(** X15. The handshake cannot go round in circles: what the listener posts is
    never a message that the listener itself would answer or act on. *)
Theorem handshake_replies_are_inert (claimed claimed' : bool)
    (event : Handshake.MessageEvent) (port : nat) (reply : JsValue)
    (ports' : option (list nat)) :
  In (Handshake.PostMessage port reply) (Handshake.on_message claimed event) ->
  Handshake.on_message claimed' (Handshake.mkMessage reply ports') = [].
Proof.
  unfold Handshake.on_message at 1.
  destruct (js_truthy (Handshake.data event)); cbn [negb]; [|intros []].
  destruct (Handshake.ports event) as [[|p others]|]; try (intros []).
  assert (Hpong : Handshake.on_message claimed'
                    (Handshake.mkMessage (Handshake.message ACTION.PONG) ports') = []).
  { unfold Handshake.on_message. cbn. now destruct ports' as [[|? ?]|]. }
  assert (Hest : Handshake.on_message claimed'
                   (Handshake.mkMessage (Handshake.message ACTION.ESTABLISHED) ports') = []).
  { unfold Handshake.on_message. cbn. now destruct ports' as [[|? ?]|]. }
  destruct (strict_equals _ ACTION.PING).
  - intros [[= <- <-] | []]. exact Hpong.
  - destruct (strict_equals _ ACTION.REQUEST_CLAIM); [|intros []].
    destruct claimed.
    + intros [[=] | [[= <- <-] | []]]. exact Hest.
    + intros [[=] | []].
Qed.

(** ** The listener's own fetch *)

Lemma listener_fetches_app a b :
  listener_fetches (a ++ b) = (listener_fetches a + listener_fetches b)%nat.
Proof. unfold listener_fetches. now rewrite List.filter_app, length_app. Qed.

Lemma listener_fetches_other tr e :
  bare e = false -> listener_fetches (tr ++ [e]) = listener_fetches tr.
Proof.
  intros He. rewrite listener_fetches_app. unfold listener_fetches at 2.
  cbn. rewrite He. cbn. lia.
Qed.

Lemma nativeFetch_init input init g : call_init (nativeFetch input init g).1 = init.
Proof.
  unfold nativeFetch.
  destruct (g_fetch g); try reflexivity; now destruct (g_XMLHttpRequest g).
Qed.

Lemma end_listener_fetches w :
  listener_fetches (w_trace (end_' w)) = listener_fetches (w_trace w).
Proof.
  unfold end_. destruct (_ && _); destruct (negb _); try reflexivity;
    cbn [w_trace resolve upd_res emit type]; now rewrite listener_fetches_other.
Qed.

Lemma forward_listener_fetches input init w :
  listener_fetches (w_trace (forward input init w)) = listener_fetches (w_trace w).
Proof.
  rewrite forward_trace. apply listener_fetches_other.
  cbn [bare]. now rewrite nativeFetch_init.
Qed.

Lemma call_listener_fetches c w :
  listener_fetches (w_trace (call' c w)) = listener_fetches (w_trace w).
Proof.
  destruct (finalizes c) eqn:Hf.
  { destruct (finalizes_via_end c w Hf) as (w' & -> & Hsame & _).
    rewrite end_listener_fetches. now rewrite (same_request_trace _ _ Hsame). }
  destruct c; try discriminate Hf; cbn [call]; try reflexivity.
  apply forward_listener_fetches.
Qed.

Lemma run_reactions_listener_fetches rs w :
  listener_fetches (w_trace (foldl (fun w r => run_reaction r w) w rs))
  = listener_fetches (w_trace w).
Proof.
  revert w. induction rs as [|r rs IH]; intros w; [reflexivity|].
  cbn [foldl]. rewrite IH. unfold run_reaction.
  destruct r, (signal w); try reflexivity;
    cbn [clearTimeout emit w_trace disarm set_timers]; now rewrite listener_fetches_other.
Qed.

Lemma drain_listener_fetches w :
  listener_fetches (w_trace (drain w)) = listener_fetches (w_trace w).
Proof.
  unfold drain. destruct (signal w); try reflexivity;
    cbn [set_reactions w_trace]; apply run_reactions_listener_fetches.
Qed.

Lemma net_reply_trace id res w : w_trace (net_reply id res w) = w_trace w.
Proof.
  unfold net_reply. destruct (bool_decide _); [|reflexivity].
  set (w1 := set_inflight _ w).
  set (w2 := match signal w1 with Following _ => _ | _ => w1 end).
  assert (H2 : w_trace w2 = w_trace w).
  { subst w2. destruct (signal w1); try reflexivity. now destruct (Nat.eqb _ _). }
  destruct (bool_decide _); [|exact H2]. destruct res; exact H2.
Qed.

Lemma fetched_once_keep w' w :
  listener_fetches (w_trace w') = listener_fetches (w_trace w) ->
  (w_resolved w' = false -> w_resolved w = false) ->
  fetched_once w -> fetched_once w'.
Proof. intros E Hr [H0 H1]. split; rewrite E; auto. Qed.

Lemma call_fetched_once c w : fetched_once w -> fetched_once (call' c w).
Proof.
  apply fetched_once_keep; [apply call_listener_fetches|].
  now rewrite (same_resolved _ _ (call_schedule c w)).
Qed.

Lemma calls_fetched_once cs w : fetched_once w -> fetched_once (calls' cs w).
Proof.
  revert w. induction cs as [|c cs IH]; intros w H; [exact H|].
  change (fetched_once (calls' cs (call' c w))). now apply IH, call_fetched_once.
Qed.

Lemma drain_fetched_once w : fetched_once w -> fetched_once (drain w).
Proof.
  apply fetched_once_keep; [apply drain_listener_fetches|].
  rewrite drain_resolved. now destruct (_ && _).
Qed.

Lemma fire_fetched_once w : fetched_once w -> fetched_once (fire w).
Proof.
  intros H. unfold fire. destruct (next_timer _) as [[t d]|]; [|exact H].
  set (w1 := set_now _ (disarm t w)).
  assert (H1 : fetched_once w1) by exact H.
  clearbody w1. destruct t.
  - unfold response_timeout. destruct (Defer.done _); [exact H1|].
    revert H1. apply fetched_once_keep.
    + rewrite forward_listener_fetches. cbn [emit w_trace].
      now rewrite listener_fetches_other.
    + now rewrite (same_resolved _ _ (forward_schedule _ _ _)).
  - unfold fallback_timeout. destruct (w_resolved w1) eqn:Hr; [exact H1|].
    destruct H1 as [H0 _]. specialize (H0 Hr).
    split; [discriminate|].
    cbn [issue add_fallback w_trace set_resolved].
    rewrite listener_fetches_app, H0. cbn. lia.
Qed.

Lemma net_reply_fetched_once id res w : fetched_once w -> fetched_once (net_reply id res w).
Proof.
  apply fetched_once_keep; [now rewrite net_reply_trace|].
  now rewrite (same_resolved _ _ (net_reply_schedule id res w)).
Qed.

Lemma step_fetched_once e w : fetched_once w -> fetched_once (step' e w).
Proof.
  intros H. unfold step. apply drain_fetched_once.
  destruct e;
    [now apply call_fetched_once|now apply fire_fetched_once|now apply net_reply_fetched_once].
Qed.

Lemma some_fetched_once event routers w :
  fetched_once w ->
  fetched_once (some (match_router mime_lookup getStatusText event) routers w).2.
Proof.
  revert w. induction routers as [|rt routers IH]; intros w H; [exact H|].
  cbn [some]. unfold match_router at 1. destruct (_match rt event) as [matched cs].
  assert (H1 : fetched_once (calls' cs (emit (Match (rid rt)) w))).
  { apply calls_fetched_once. revert H. apply fetched_once_keep; [|auto].
    cbn [emit w_trace]. now rewrite listener_fetches_other. }
  destruct matched; [exact H1|]. now apply IH.
Qed.

Lemma on_fetch_fetched_once routers event g now :
  fetched_once (on_fetch' routers event g now).
Proof.
  unfold on_fetch. apply drain_fetched_once.
  set (w0 := set_reactions _ (emit (RespondWith DeferredPromiseThen) _)).
  assert (H0 : fetched_once w0) by (split; [reflexivity|cbn; lia]).
  pose proof (some_fetched_once event routers w0 H0) as H1.
  revert H1. apply fetched_once_keep; [|auto].
  unfold setTimeout. cbn [emit set_timers w_trace]. now rewrite listener_fetches_other.
Qed.

(** X16. The listener fetches the original request by itself, with a fetch call
    that passes no [init], once at most for an event, however often timers
    fire and whatever the handlers and the network do. *)
Theorem listener_fetches_at_most_once (routers : list MockerRouter) (event : FetchEvent)
    (g : GlobalContext) (now : Z) (es : list Event) :
  (listener_fetches (w_trace (run' es (on_fetch' routers event g now))) <= 1)%nat.
Proof.
  assert (H : fetched_once (on_fetch' routers event g now)) by apply on_fetch_fetched_once.
  revert H. generalize (on_fetch' routers event g now) as w.
  induction es as [|e es IH]; intros w H; [exact (proj2 H)|].
  change (listener_fetches (w_trace (run' es (step' e w))) <= 1)%nat.
  now apply IH, step_fetched_once.
Qed.

End Properties.


(** * Scenarios *)

Example scenario_A :
  signal (on_fetch mime_table status_table [router_A] (GET "/anything") service_worker 0)
  = Fulfilled response_A.
Proof. vm_compute. reflexivity. Qed.

Lemma powered_by_header_witness :
  Headers.get "X-Powered-By"
    (headers (w_res (MockerResponse_new (GET "/anything") service_worker 0)))
  = Some "ServiceMocker"
  /\ (Headers.get "X-Powered-By" (resp_headers response_A) = Some "ServiceMocker"
      \/ exists id, In (EvNetReply id (Some response_A)) [EvTimer]).
Proof.
  apply (powered_by_header mime_table status_table [router_A] (GET "/anything")
           service_worker 0 [EvTimer] response_A).
  - reflexivity.
  - vm_compute. reflexivity.
Defined.

Lemma resolution_idempotent_witness :
  exists r,
    signal (call mime_table status_table (CJson (JObject [("id", JNumber 1)]))
              (MockerResponse_new (GET "/anything") service_worker 0)) = Fulfilled r
    /\ signal (calls mime_table status_table [CSend (JString "late"); CEnd]
                 (call mime_table status_table (CJson (JObject [("id", JNumber 1)]))
                    (MockerResponse_new (GET "/anything") service_worker 0))) = Fulfilled r
    /\ signal (run mime_table status_table [EvTimer; EvHandler (CStatus 500); EvHandler CEnd]
                 (calls mime_table status_table [CSend (JString "late"); CEnd]
                    (call mime_table status_table (CJson (JObject [("id", JNumber 1)]))
                       (MockerResponse_new (GET "/anything") service_worker 0))))
       = Fulfilled r.
Proof.
  apply (resolution_idempotent mime_table status_table
           (MockerResponse_new (GET "/anything") service_worker 0)
           (CJson (JObject [("id", JNumber 1)]))
           [CSend (JString "late"); CEnd]
           [EvTimer; EvHandler (CStatus 500); EvHandler CEnd]); reflexivity.
Defined.



(** A router that does not match does not end the loop. *)
Example dispatcher_passes_unmatched :
  asked (w_trace (on_fetch mime_table status_table [router_none; router_A; router_B]
                    (GET "/anything") service_worker 0))
  = [rid router_none; rid router_A].
Proof. vm_compute. reflexivity. Qed.

(** C2 at one event: a GET with no router registered. *)
Example respondWith_twice_for_GET :
  w_trace (on_fetch mime_table status_table [] (GET "/missing") service_worker 0)
  = [RespondWith DeferredPromise; SetTimeout ResponseTimer 10000;
     RespondWith DeferredPromiseThen; SetTimeout FallbackTimer 2000].
Proof. vm_compute. reflexivity. Qed.



(** C6, as the claim has it, fails: [send(undefined)] is not rejected; it
    finalizes a response with an empty body of type text/plain. *)
Lemma send_rejects_other_shapes_counterexample :
  signal (send mime_table status_table JUndefined
            (MockerResponse_new (GET "/anything") service_worker 0))
  = Fulfilled (mkResponse JUndefined
                 (Headers.set "content-type" "text/plain"
                    (Headers.of_list [("X-Powered-By", "ServiceMocker")]))
                 200 "OK")
  /\ signal (send mime_table status_table JFunction
               (MockerResponse_new (GET "/anything") service_worker 0))
     <> Pending.
Proof. split; [vm_compute; reflexivity|vm_compute; discriminate]. Qed.

Lemma send_dispatch_witness :
  exists r,
    signal (send mime_table status_table (JBlob "image/png" "PNG")
              (MockerResponse_new (GET "/logo.png") service_worker 0)) = Fulfilled r
    /\ resp_body r = JBlob "image/png" "PNG"
    /\ Headers.get "content-type" (resp_headers r) = Some "image/png".
Proof.
  destruct (send_dispatch mime_table status_table
              (MockerResponse_new (GET "/logo.png") service_worker 0)
              (JBlob "image/png" "PNG") eq_refl)
    as (r & Hs & _ & Hb & Hh & _).
  exists r. split; [exact Hs|]. split; [exact Hb|]. rewrite Hh. reflexivity.
Defined.

(** C5, as the claim has it, fails: when the per-response timer fires on an
    unresolved signal, nothing is logged at the warn level; the message goes
    out at the error level. *)
Lemma response_timer_logs_warning_counterexample :
  signal (run mime_table status_table [EvTimer]
            (on_fetch mime_table status_table [] (GET "/slow") service_worker 0)) = Pending
  /\ logged LogWarn
       (w_trace (run mime_table status_table [EvTimer; EvTimer]
                   (on_fetch mime_table status_table [] (GET "/slow") service_worker 0)))
     = []
  /\ logged LogError
       (w_trace (run mime_table status_table [EvTimer; EvTimer]
                   (on_fetch mime_table status_table [] (GET "/slow") service_worker 0)))
     = [MSG_TIMEOUT].
Proof. repeat split; vm_compute; reflexivity. Qed.

Lemma per_response_timer_witness :
  exists route,
    w_trace (fire (run mime_table status_table [EvTimer]
                     (on_fetch mime_table status_table [] (GET "/slow") service_worker 0)))
    = (w_trace (run mime_table status_table [EvTimer]
                  (on_fetch mime_table status_table [] (GET "/slow") service_worker 0))
       ++ [Log LogError MSG_TIMEOUT;
           Fetch 1 (mkCall route (InfoRequest (request (GET "/slow"))) (Some empty_init))])%list
    /\ route <> ToInterceptor.
Proof.
  destruct (per_response_timer mime_table status_table [] (GET "/slow") service_worker 0
              [EvTimer]) as (_ & _ & Hfire & _).
  destruct (Hfire 10000 eq_refl) as (_ & route & Htrace & Hroute & _).
  exists route. split; [exact Htrace|exact Hroute].
Defined.

(** A builder that settles has its timer cleared: scenario A. *)
Example timer_cleared_once_fulfilled :
  w_timers (on_fetch mime_table status_table [router_A] (GET "/anything") service_worker 0)
  = [(FallbackTimer, 2000)].
Proof. vm_compute. reflexivity. Qed.



(** Scenario B: no router registered; the answer of the network becomes the
    response, 2 time units after dispatch. *)
Example scenario_B :
  let w := run mime_table status_table
             [EvTimer; EvNetReply 0 (Some (network_response "real"))]
             (on_fetch mime_table status_table [] (GET "/missing") service_worker 0) in
  signal w = Fulfilled (network_response "real") /\ w_now w = 2 * time_unit.
Proof. split; vm_compute; reflexivity. Qed.

(** Where the global [fetch] is the patched one of legacy mode, the request
    of the listener's timer goes back to the interceptor, while
    [forward()] reaches the network. *)
Example fallback_timer_under_patched_fetch :
  fetch_calls (w_trace (fire (on_fetch mime_table status_table [] (GET "/missing")
                                legacy_fetch 0)))
  = [mkCall ToInterceptor (InfoRequest (request (GET "/missing"))) None]
  /\ fetch_calls (w_trace (forward (InfoRequest (request (GET "/missing"))) empty_init
                             (on_fetch mime_table status_table [] (GET "/missing")
                                legacy_fetch 0)))
     = [mkCall ToNetwork (InfoRequest (request (GET "/missing"))) (Some empty_init)].
Proof. split; vm_compute; reflexivity. Qed.



(** Scenario D: [res.sendStatus(404)]. *)
Example scenario_D :
  signal (sendStatus mime_table status_table 404
            (MockerResponse_new (GET "/anything") service_worker 0))
  = Fulfilled (mkResponse (JString "Not Found")
                 (Headers.set "content-type" "text/plain"
                    (Headers.of_list [("X-Powered-By", "ServiceMocker")]))
                 404 "Not Found").
Proof. vm_compute. reflexivity. Qed.

Example headers_case_insensitive :
  Headers.get "Content-Type" (Headers.set "content-type" "text/html" ∅) = Some "text/html".
Proof. reflexivity. Qed.

Example parse_stringify_sample :
  JSON.parse ("{" ++ JSON.dquote ++ "id" ++ JSON.dquote ++ ":[1,-2,null,true]}")
  = Some (JObject [("id", JArray [JNumber 1; JNumber (-2); JNull; JBool true])]).
Proof. vm_compute. reflexivity. Qed.

(** ** More scenarios *)




Lemma json_of_nothing_witness :
  exists r,
    signal (json mime_table status_table JUndefined
              (MockerResponse_new (GET "/items") service_worker 0)) = Fulfilled r
    /\ resp_body r = JUndefined.
Proof.
  destruct (json_of_nothing mime_table status_table
              (MockerResponse_new (GET "/items") service_worker 0) JUndefined)
    as (r & Hs & Hb & _); [simpl; auto|reflexivity|].
  exists r. split; [exact Hs|exact Hb].
Defined.


Lemma failed_forward_is_final_witness :
  signal (run mime_table status_table [EvHandler CEnd; EvTimer]
            (step mime_table status_table (EvNetReply 0 None)
               (forward (InfoUrl "https://backend.example.com/items") empty_init
                  (MockerResponse_new (GET "/items") service_worker 0)))) = Rejected.
Proof.
  apply (failed_forward_is_final mime_table status_table
           (forward (InfoUrl "https://backend.example.com/items") empty_init
              (MockerResponse_new (GET "/items") service_worker 0))
           0%nat [EvHandler CEnd; EvTimer]).
  - reflexivity.
  - simpl. auto.
Defined.


Lemma timers_silent_after_response_witness :
  w_trace (run mime_table status_table (repeat EvTimer 3)
             (run mime_table status_table []
                (on_fetch mime_table status_table [router_A] (GET "/items") service_worker 0)))
  = w_trace (run mime_table status_table []
               (on_fetch mime_table status_table [router_A] (GET "/items") service_worker 0)).
Proof.
  assert (Hf : fulfilled
                 (signal (run mime_table status_table []
                            (on_fetch mime_table status_table [router_A] (GET "/items")
                               service_worker 0))) = true) by (vm_compute; reflexivity).
  exact (proj1 (timers_silent_after_response mime_table status_table [router_A]
                  (GET "/items") service_worker 0 [] 3 Hf)).
Defined.

Lemma response_can_always_complete_witness :
  exists es',
    forallb helpful es' = true
    /\ (length es' <= 3)%nat
    /\ fulfilled
         (signal (run mime_table status_table es'
                    (run mime_table status_table [EvTimer]
                       (on_fetch mime_table status_table [] (GET "/missing")
                          service_worker 0)))) = true.
Proof.
  apply (response_can_always_complete mime_table status_table [] (GET "/missing")
           service_worker 0 [EvTimer]).
  vm_compute. discriminate.
Defined.

Lemma handshake_reply_witness :
  Handshake.on_message true
    (Handshake.mkMessage (Handshake.message ACTION.REQUEST_CLAIM) (Some [7; 8]%nat))
  = [Handshake.ClaimClients;
     Handshake.PostMessage 7 (Handshake.message ACTION.ESTABLISHED)].
Proof.
  destruct (handshake_reply true
              (Handshake.mkMessage (Handshake.message ACTION.REQUEST_CLAIM)
                 (Some [7; 8]%nat))
              7%nat (Handshake.message ACTION.ESTABLISHED))
    as (_ & _ & [(Hping & _) | (_ & _ & _ & H)]).
  - simpl. auto.
  - discriminate Hping.
  - exact H.
Defined.

Lemma handshake_replies_are_inert_witness :
  Handshake.on_message true
    (Handshake.mkMessage (Handshake.message ACTION.PONG) (Some [9]%nat)) = [].
Proof.
  apply (handshake_replies_are_inert true true
           (Handshake.mkMessage (Handshake.message ACTION.PING) (Some [7]%nat))
           7%nat (Handshake.message ACTION.PONG) (Some [9]%nat)).
  simpl. auto.
Defined.
